(** * Podcast-Maker: the audio-assembly core of [app.py]

    A shallow embedding of [parse_audio_mime_type], [convert_to_wav], the
    chunk loop and file handling of [generate_podcast_audio] and the route
    [/generate] that calls it, followed by the properties of the design
    document that concern them and by further properties of the code.

    Conventions of the embedding.
    - A Python [str] is a [string]; its characters are the code points below
      256, classified the way CPython classifies them ([str.isspace],
      [str.lower], decimal digits).
    - A Python [int] is a [Z]; [//] is [Z.div] (both round towards minus
      infinity).
    - [bytes] and [bytearray] are [list byte].
    - A Python [dict] with string keys is a [gmap string _]; so is the file
      system, from path to file contents.
    - A call that can raise returns a [result]; [try]/[except] is
      [try_except].  Creating, writing and deleting a file are taken to
      succeed.
    - The remote generator is represented by the stream of chunks that it
      yields, and [mimetypes.guess_extension] by a parameter.
    - A request is the value that [request.get_json()] has returned, and a
      response is what the route returns: a status with an error body, or
      the file to send. *)

From Stdlib Require Import ZArith NArith List String Ascii Bool Lia.
From Stdlib Require Import DecimalString DecimalPos.
From coqutil Require Import Byte Word.LittleEndianList.
From stdpp Require Import base list gmap strings.

Local Open Scope string_scope.
Local Open Scope list_scope.
Local Open Scope Z_scope.

(** ** Exceptions *)

Module Py.

(** The exception classes that occur in the modelled code; all of them are
    subclasses of [Exception].  [UpstreamError] stands for whatever the
    remote generator's stream raises. *)
Inductive exn : Type :=
| ValueError
| IndexError
| KeyError
| AttributeError
| StructError
| UpstreamError (what : string).

Definition exn_eqb (a b : exn) : bool :=
  match a, b with
  | ValueError, ValueError
  | IndexError, IndexError
  | KeyError, KeyError
  | AttributeError, AttributeError
  | StructError, StructError => true
  | UpstreamError x, UpstreamError y => String.eqb x y
  | _, _ => false
  end.

Inductive result (A : Type) : Type :=
| Ok (a : A)
| Raise (e : exn).
Arguments Ok {A} a.
Arguments Raise {A} e.

Definition bind {A B} (m : result A) (k : A -> result B) : result B :=
  match m with
  | Ok a => k a
  | Raise e => Raise e
  end.

(** [try: body except (classes): handler], where [caught] decides membership
    in the listed classes. *)
Definition try_except {A} (body : result A) (caught : exn -> bool)
    (handler : result A) : result A :=
  match body with
  | Ok a => Ok a
  | Raise e => if caught e then handler else Raise e
  end.

(** [l[i]] for a non-negative constant index. *)
Definition index {A} (l : list A) (i : nat) : result A :=
  match l !! i with
  | Some a => Ok a
  | None => Raise IndexError
  end.

(** A [for] loop whose body can raise. *)
Fixpoint for_each {S A} (body : S -> A -> result S) (s : S) (l : list A)
    : result S :=
  match l with
  | [] => Ok s
  | a :: l' => bind (body s a) (fun s' => for_each body s' l')
  end.

End Py.
Import Py.
Import Stdlib.Init.Byte.

#[global] Instance result_ret : MRet result := @Ok.
#[global] Instance result_bind : MBind result := fun A B k m => bind m k.

Definition is_ok {A} (r : result A) : bool :=
  match r with Ok _ => true | Raise _ => false end.

(** ** Python strings *)

Definition code (c : ascii) : N := N_of_ascii c.

Definition between (lo hi n : N) : bool := ((lo <=? n) && (n <=? hi))%N.

(** [str.isspace] on one character: TAB..CR, FS..US, SPACE, NEL, NBSP. *)
Definition isspace (c : ascii) : bool :=
  between 9 13 (code c) || between 28 32 (code c)
  || (code c =? 133)%N || (code c =? 160)%N.

(** [str.lower] on one character: A..Z and the Latin-1 capitals. *)
Definition lower_char (c : ascii) : ascii :=
  if between 65 90 (code c)
     || (between 192 222 (code c) && negb (code c =? 215)%N)
  then ascii_of_N (code c + 32)
  else c.

Fixpoint lower (s : string) : string :=
  match s with
  | EmptyString => EmptyString
  | String c s' => String (lower_char c) (lower s')
  end.

(** [s.lstrip()] and [s.rstrip()] *)
Fixpoint lstrip (s : string) : string :=
  match s with
  | EmptyString => EmptyString
  | String c s' => if isspace c then lstrip s' else s
  end.

Fixpoint rstrip (s : string) : string :=
  match s with
  | EmptyString => EmptyString
  | String c s' =>
      match rstrip s' with
      | EmptyString => if isspace c then EmptyString else String c EmptyString
      | r => String c r
      end
  end.

(** [s.strip()] *)
Definition strip (s : string) : string := rstrip (lstrip s).

(** [s.startswith(p)] *)
Fixpoint startswith (s p : string) {struct p} : bool :=
  match p with
  | EmptyString => true
  | String y p' =>
      match s with
      | String x s' => Ascii.eqb x y && startswith s' p'
      | EmptyString => false
      end
  end.

(** Put [c] in front of the first piece of a split. *)
Definition cons_head (c : ascii) (l : list string) : list string :=
  match l with
  | h :: t => String c h :: t
  | [] => [String c EmptyString]
  end.

(** [s.split(sep)] for a one-character separator. *)
Fixpoint split (sep : ascii) (s : string) : list string :=
  match s with
  | EmptyString => [EmptyString]
  | String c s' =>
      if Ascii.eqb c sep then EmptyString :: split sep s'
      else cons_head c (split sep s')
  end.

(** [s.split(sep, 1)] for a one-character separator. *)
Fixpoint split1 (sep : ascii) (s : string) : list string :=
  match s with
  | EmptyString => [EmptyString]
  | String c s' =>
      if Ascii.eqb c sep then [EmptyString; s']
      else cons_head c (split1 sep s')
  end.

(** ** [int(str)]

    Base-ten conversion as CPython performs it: surrounding whitespace is
    skipped, one sign is allowed, digits may be grouped by single
    underscores, and a literal of more than [int_max_str_digits] digits is
    refused.  Every refusal is a [ValueError]. *)

(** Whitespace for [int]: the characters in FS..US are not skipped. *)
Definition int_space (c : ascii) : bool :=
  between 9 13 (code c) || (code c =? 32)%N
  || (code c =? 133)%N || (code c =? 160)%N.

Definition digit_of (c : ascii) : option Z :=
  if between 48 57 (code c) then Some (Z.of_N (code c) - 48) else None.

Fixpoint skip_space (s : string) : string :=
  match s with
  | EmptyString => EmptyString
  | String c s' => if int_space c then skip_space s' else s
  end.

Fixpoint all_space (s : string) : bool :=
  match s with
  | EmptyString => true
  | String c s' => int_space c && all_space s'
  end.

(** The digit run: [underscore] tells whether the previous character was an
    underscore, [acc] is the value read so far and [n] the number of digits
    read so far.  The run ends at the end of the string or at trailing
    whitespace. *)
Fixpoint int_digits (s : string) (underscore : bool) (acc : Z) (n : N)
    : option (Z * N) :=
  match s with
  | EmptyString => if underscore then None else Some (acc, n)
  | String c s' =>
      match digit_of c with
      | Some d => int_digits s' false (10 * acc + d) (n + 1)
      | None =>
          if Ascii.eqb c "_" then
            if underscore then None else int_digits s' true acc n
          else if underscore then None
          else if all_space s then Some (acc, n)
          else None
      end
  end.

(** The interpreter's default limit on the digits of a converted literal. *)
Definition int_max_str_digits : N := 4300.

Definition int_unsigned (s : string) : result Z :=
  match s with
  | String c _ =>
      match digit_of c with
      | Some _ =>
          match int_digits s false 0 0 with
          | Some (v, n) =>
              if (int_max_str_digits <? n)%N then Raise ValueError else Ok v
          | None => Raise ValueError
          end
      | None => Raise ValueError
      end
  | EmptyString => Raise ValueError
  end.

Definition int_signed (s : string) : result Z :=
  match s with
  | String c s' =>
      if Ascii.eqb c "+" then int_unsigned s'
      else if Ascii.eqb c "-" then v ← int_unsigned s'; Ok (- v)
      else int_unsigned s
  | EmptyString => int_unsigned s
  end.

(** [int(s)] *)
Definition int (s : string) : result Z := int_signed (skip_space s).

(** ** [parse_audio_mime_type] (lines 67 to 99) *)

(** [except (ValueError, IndexError)] *)
Definition value_or_index_error (e : exn) : bool :=
  exn_eqb e ValueError || exn_eqb e IndexError.

(** The body of the loop over the parameters.  The state is the pair of the
    local variables [(bits_per_sample, rate)]. *)
Definition parse_param (st : Z * Z) (param : string) : result (Z * Z) :=
  let '(bits_per_sample, rate) := st in
  let param := strip param in
  if startswith (lower param) "rate=" then
    try_except
      (rate_str ← index (split1 "=" param) 1;
       rate ← int rate_str;
       Ok (bits_per_sample, rate))
      value_or_index_error
      (Ok (bits_per_sample, rate))
  else if startswith param "audio/L" then
    try_except
      (suffix ← index (split1 "L" param) 1;
       bits_per_sample ← int suffix;
       Ok (bits_per_sample, rate))
      value_or_index_error
      (Ok (bits_per_sample, rate))
  else Ok (bits_per_sample, rate).

Definition parse_audio_mime_type (mime_type : string)
    : result (gmap string Z) :=
  let bits_per_sample := 16 in
  let rate := 24000 in
  let parts := split ";" mime_type in
  '(bits_per_sample, rate) ← for_each parse_param (bits_per_sample, rate) parts;
  Ok ({[ "bits_per_sample" := bits_per_sample; "rate" := rate ]}
        : gmap string Z).

(** ** [struct.pack] with a little-endian format *)

(** One format character together with its argument: [4s], [I], [H]. *)
Inductive field : Type :=
| s4 (b : list byte)
| I (v : Z)
| H (v : Z).

(** [v] is an unsigned integer of [n] bytes. *)
Definition fits (n : nat) (v : Z) : bool :=
  (0 <=? v) && (v <? 2 ^ (8 * Z.of_nat n)).

(** An unsigned integer field of [n] bytes: out of range is [struct.error]. *)
Definition pack_uint (n : nat) (v : Z) : result (list byte) :=
  if fits n v then Ok (le_split n v) else Raise StructError.

Definition pack_field (f : field) : result (list byte) :=
  match f with
  | s4 b => Ok (firstn 4 (b ++ repeat Byte.x00 4))
  | I v => pack_uint 4 v
  | H v => pack_uint 2 v
  end.

Fixpoint struct_pack (fs : list field) : result (list byte) :=
  match fs with
  | [] => Ok []
  | f :: fs' =>
      b ← pack_field f;
      bs ← struct_pack fs';
      Ok (b ++ bs)
  end.

(** A [bytes] literal. *)
Definition b (s : string) : list byte := list_byte_of_string s.

(** ** [convert_to_wav] (lines 28 to 65) *)

(** [d[k]] *)
Definition getitem (d : gmap string Z) (k : string) : result Z :=
  match d !! k with
  | Some v => Ok v
  | None => Raise KeyError
  end.

(** The part of [convert_to_wav] that follows the call of the parser: the
    container for [audio_data] under the parsed [parameters]. *)
Definition encode (audio_data : list byte) (parameters : gmap string Z)
    : result (list byte) :=
  bits_per_sample ← getitem parameters "bits_per_sample";
  sample_rate ← getitem parameters "rate";
  let num_channels := 1 in
  let data_size := Z.of_nat (length audio_data) in
  let bytes_per_sample := bits_per_sample / 8 in
  let block_align := num_channels * bytes_per_sample in
  let byte_rate := sample_rate * block_align in
  let chunk_size := 36 + data_size in
  header ← struct_pack
    [ s4 (b "RIFF");
      I chunk_size;
      s4 (b "WAVE");
      s4 (b "fmt ");
      I 16;
      H 1;
      H num_channels;
      I sample_rate;
      I byte_rate;
      H block_align;
      H bits_per_sample;
      s4 (b "data");
      I data_size ];
  Ok (header ++ audio_data).

Definition convert_to_wav (audio_data : list byte) (mime_type : string)
    : result (list byte) :=
  parameters ← parse_audio_mime_type mime_type;
  encode audio_data parameters.

(** The dictionary that the parser returns for the two values. *)
Definition params (bits_per_sample rate : Z) : gmap string Z :=
  {[ "bits_per_sample" := bits_per_sample; "rate" := rate ]}.

(** ** The streamed response *)

(** The fields of the generator's response objects that the loop reads; each
    of them is optional in the client library. *)
Record Blob : Type := { data : option (list byte); mime_type : option string }.
Record Part : Type := { inline_data : option Blob }.
Record Content : Type := { parts : option (list Part) }.
Record Candidate : Type := { content : option Content }.
Record Chunk : Type := { candidates : option (list Candidate) }.

(** What iterating over the response does: yield a chunk, stop, or raise. *)
Inductive Stream : Type :=
| Stop
| Yield (chunk : Chunk) (rest : Stream)
| Fail (e : exn).

Fixpoint stream_of (chunks : list Chunk) (last : Stream) : Stream :=
  match chunks with
  | [] => last
  | c :: cs => Yield c (stream_of cs last)
  end.

(** ** [generate_podcast_audio] (lines 101 to 191) *)

Section Assembler.

(** [mimetypes.guess_extension], which consults the host's type table. *)
Variable guess_extension : string -> option string.

(** The body of the loop over the streamed chunks (lines 160 to 179);
    [audio_data] is the accumulator.  Indexing an empty list raises
    [IndexError], an absent or empty [data] is false, and a media type of
    [None] makes the lookup of the extension raise [AttributeError]. *)
Definition process_chunk (audio_data : list byte) (chunk : Chunk)
    : result (list byte) :=
  match candidates chunk with
  | None => Ok audio_data
  | Some cands =>
      cand ← index cands 0;
      match content cand with
      | None => Ok audio_data
      | Some cont =>
          match parts cont with
          | None => Ok audio_data
          | Some ps =>
              part ← index ps 0;
              match inline_data part with
              | Some inline =>
                  match data inline with
                  | None | Some [] => Ok audio_data
                  | Some data_buffer =>
                      match mime_type inline with
                      | None => Raise AttributeError
                      | Some mime =>
                          data_buffer ←
                            match guess_extension mime with
                            | None => convert_to_wav data_buffer mime
                            | Some _ => Ok data_buffer
                            end;
                          Ok (audio_data ++ data_buffer)
                      end
                  end
              | None => Ok audio_data
              end
          end
      end
  end.

(** The loop itself (lines 155 to 179). *)
Fixpoint assemble (audio_data : list byte) (stream : Stream)
    : result (list byte) :=
  match stream with
  | Stop => Ok audio_data
  | Fail e => Raise e
  | Yield chunk rest =>
      audio_data ← process_chunk audio_data chunk;
      assemble audio_data rest
  end.

(** [api_key] is the value of the environment variable, [temp_name] the path
    of the temporary file that the operating system hands out, [stream] the
    response of the generator, and the [gmap] the files on disk before and
    after the call.  A missing or empty key raises before the temporary file
    exists; any exception of the loop deletes the file and is raised
    again. *)
Definition generate_podcast_audio (api_key : option string)
    (temp_name : string) (stream : Stream) (fs : gmap string (list byte))
    : result string * gmap string (list byte) :=
  match api_key with
  | None | Some EmptyString => (Raise ValueError, fs)
  | Some _ =>
      let fs := <[ temp_name := [] ]> fs in
      match assemble [] stream with
      | Ok audio_data => (Ok temp_name, <[ temp_name := audio_data ]> fs)
      | Raise e =>
          (Raise e,
           if decide (is_Some (fs !! temp_name)) then delete temp_name fs
           else fs)
      end
  end.

End Assembler.

(** ** The route [/generate]: [generate_podcast] (lines 198 to 250) *)

(** What [request.get_json()] returns, from which the model of the route
    starts.  Of a float the code observes only whether it is zero. *)
#[warnings="-register-all"]
Inductive json : Type :=
| JNull
| JBool (b : bool)
| JInt (z : Z)
| JFloat (zero : bool)
| JString (s : string)
| JList (l : list json)
| JObject (d : gmap string json).

(** What the body of the route can raise: the exceptions of the core, and
    [TypeError] from an operand of the wrong type.  Of the exceptions of the
    core only [ValueError] is caught by the first handler: a stream that
    raises a [ValueError] is a stream that ends in [Fail ValueError]. *)
Inductive thrown : Type :=
| Core (e : exn)
| TypeError.

(** [isinstance(e, ValueError)] *)
Definition is_value_error (e : thrown) : bool :=
  match e with
  | Core ValueError => true
  | _ => false
  end.

Inductive outcome (A : Type) : Type :=
| Return (a : A)
| Throw (e : thrown).
Arguments Return {A} a.
Arguments Throw {A} e.

(** The value under ["error"] in a JSON body: a literal text, [str(e)], or
    the text of a failed generation followed by [str(e)]. *)
Inductive message : Type :=
| Literal (text : string)
| Str (e : thrown)
| FailedToGenerate (e : thrown).

(** [jsonify({"error": ...}), status], or the file sent as an attachment
    with [remove_file] registered for the close of the response. *)
Inductive response : Type :=
| Error (status : Z) (error : message)
| SendFile (path download_name : string).

(** [bool(data)] *)
Definition truth (data : json) : bool :=
  match data with
  | JNull => false
  | JBool b => b
  | JInt z => negb (z =? 0)
  | JFloat zero => negb zero
  | JString s => negb (String.eqb s "")
  | JList l => negb (Nat.eqb (length l) 0)
  | JObject d => negb (Nat.eqb (size d) 0)
  end.

(** [sub in s] for two strings *)
Fixpoint contains (s sub : string) : bool :=
  startswith s sub
  || match s with
     | EmptyString => false
     | String _ s' => contains s' sub
     end.

(** ['script' in data] *)
Definition has_script (data : json) : outcome bool :=
  match data with
  | JObject d => Return (bool_decide (is_Some (d !! "script")))
  | JList l =>
      Return
        (existsb
           (fun x =>
              match x with JString s => String.eqb s "script" | _ => false end)
           l)
  | JString s => Return (contains s "script")
  | JNull | JBool _ | JInt _ | JFloat _ => Throw TypeError
  end.

(** [data['script']] *)
Definition get_script (data : json) : outcome json :=
  match data with
  | JObject d =>
      match d !! "script" with
      | Some v => Return v
      | None => Throw (Core KeyError)
      end
  | _ => Throw TypeError
  end.

Section Service.

Variable guess_extension : string -> option string.

(** The key in the environment, the path that the temporary file gets, the
    stream that the generator answers a script with, and the hexadecimal
    form of the random identifier. *)
Variable api_key : option string.
Variable temp_name : string.
Variable generator : string -> Stream.
Variable uuid_hex : string.

(** The body of the [try] (lines 202 to 239), from the value that
    [request.get_json()] has returned on.  [send_file] and the registration
    of [remove_file] are taken to succeed. *)
Definition generate_podcast_body (data : json) (fs : gmap string (list byte))
    : outcome response * gmap string (list byte) :=
  let required := Error 400 (Literal "Script text is required") in
  if negb (truth data) then (Return required, fs)
  else
    match has_script data with
    | Throw e => (Throw e, fs)
    | Return false => (Return required, fs)
    | Return true =>
        match get_script data with
        | Throw e => (Throw e, fs)
        | Return (JString script_text) =>
            if String.eqb (strip script_text) "" then
              (Return (Error 400 (Literal "Script cannot be empty")), fs)
            else if negb (contains (lower script_text) "david:")
                    || negb (contains (lower script_text) "janis:") then
              (Return
                 (Error 400
                    (Literal
                       "Script must contain both 'david:' and 'janis:' speakers")),
               fs)
            else
              match
                generate_podcast_audio guess_extension api_key temp_name
                  (generator script_text) fs
              with
              | (Ok audio_file_path, fs) =>
                  (Return
                     (SendFile audio_file_path
                        ("podcast_" +:+ substring 0 8 uuid_hex +:+ ".wav")),
                   fs)
              | (Raise e, fs) => (Throw (Core e), fs)
              end
        | Return _ => (Throw (Core AttributeError), fs)
        end
    end.

(** The route with its two handlers (lines 241 to 250).  Whatever is raised
    is raised before [audio_file_path] is bound, so the second handler has
    no file to remove. *)
Definition generate_podcast (data : json) (fs : gmap string (list byte))
    : response * gmap string (list byte) :=
  match generate_podcast_body data fs with
  | (Return r, fs) => (r, fs)
  | (Throw e, fs) =>
      if is_value_error e then (Error 400 (Str e), fs)
      else (Error 500 (FailedToGenerate e), fs)
  end.

End Service.

(** * Vocabulary of the properties *)

(** The 44 bytes that precede the payload, field by field. *)
Definition wav_header (bits_per_sample sample_rate data_size : Z) : list byte :=
  b "RIFF" ++ le_split 4 (36 + data_size) ++ b "WAVE"
  ++ b "fmt " ++ le_split 4 16 ++ le_split 2 1 ++ le_split 2 1
  ++ le_split 4 sample_rate
  ++ le_split 4 (sample_rate * (1 * (bits_per_sample / 8)))
  ++ le_split 2 (1 * (bits_per_sample / 8))
  ++ le_split 2 bits_per_sample
  ++ b "data" ++ le_split 4 data_size.

(** The header up to the data size. *)
Definition wav_header_prefix (bits_per_sample sample_rate data_size : Z)
    : list byte :=
  b "RIFF" ++ le_split 4 (36 + data_size) ++ b "WAVE"
  ++ b "fmt " ++ le_split 4 16 ++ le_split 2 1 ++ le_split 2 1
  ++ le_split 4 sample_rate
  ++ le_split 4 (sample_rate * (1 * (bits_per_sample / 8)))
  ++ le_split 2 (1 * (bits_per_sample / 8))
  ++ le_split 2 bits_per_sample
  ++ b "data".

(** Every integer of the header fits the slot that the format string gives
    it. *)
Definition header_fits (bits_per_sample sample_rate data_size : Z) : bool :=
  fits 4 (36 + data_size) && fits 4 sample_rate
  && fits 4 (sample_rate * (1 * (bits_per_sample / 8)))
  && fits 2 (1 * (bits_per_sample / 8)) && fits 2 bits_per_sample
  && fits 4 data_size.

(** [bs[off : off + n]] read as an unsigned little-endian integer. *)
Definition le_field (off n : nat) (bs : list byte) : Z :=
  le_combine (firstn n (skipn off bs)).

(** Bits per sample is a positive multiple of eight, the rate is positive,
    and the header fields (chunk size, sample rate, byte rate, block align,
    bits per sample, data size) lie within 32 bits. *)
Definition valid_in_32_bits (bits rate size : Z) : Prop :=
  0 < bits /\ bits mod 8 = 0 /\ 0 < rate
  /\ 0 <= 36 + size < 2 ^ 32 /\ 0 <= rate < 2 ^ 32
  /\ 0 <= rate * (1 * (bits / 8)) < 2 ^ 32
  /\ 0 <= 1 * (bits / 8) < 2 ^ 32 /\ 0 <= bits < 2 ^ 32
  /\ 0 <= size < 2 ^ 32.

(** The same with every field within its own slot: block align and bits per
    sample within 16 bits. *)
Definition valid_in_slots (bits rate size : Z) : Prop :=
  0 < bits /\ bits mod 8 = 0 /\ 0 < rate
  /\ 0 <= 36 + size < 2 ^ 32 /\ 0 <= rate < 2 ^ 32
  /\ 0 <= rate * (1 * (bits / 8)) < 2 ^ 32
  /\ 0 <= 1 * (bits / 8) < 2 ^ 16 /\ 0 <= bits < 2 ^ 16
  /\ 0 <= size < 2 ^ 32.

(** [c] occurs in [s]. *)
Fixpoint occurs (c : ascii) (s : string) : bool :=
  match s with
  | EmptyString => false
  | String x s' => Ascii.eqb x c || occurs c s'
  end.

(** The characters that a literal accepted by [int] is made of. *)
Definition int_char (c : ascii) : bool :=
  int_space c || match digit_of c with Some _ => true | None => false end
  || Ascii.eqb c "+" || Ascii.eqb c "-" || Ascii.eqb c "_".

Fixpoint all_chars (p : ascii -> bool) (s : string) : bool :=
  match s with
  | EmptyString => true
  | String c s' => p c && all_chars p s'
  end.

(** Facts about single characters are settled by going through the 256
    code points. *)
Ltac by_cases_on_char c :=
  destruct c as [[] [] [] [] [] [] [] []]; vm_compute; try reflexivity;
  try discriminate; try tauto; eauto.

(** The two values that a token can set, read off the source of
    [parse_param]. *)
Definition rate_of_param (param : string) : option Z :=
  if startswith (lower (strip param)) "rate=" then
    match split1 "=" (strip param) !! 1%nat with
    | Some v => match int v with Ok z => Some z | Raise _ => None end
    | None => None
    end
  else None.

Definition bits_of_param (param : string) : option Z :=
  if startswith (lower (strip param)) "rate=" then None
  else if startswith (strip param) "audio/L" then
    match split1 "L" (strip param) !! 1%nat with
    | Some v => match int v with Ok z => Some z | Raise _ => None end
    | None => None
    end
  else None.

(** The value of a variable after a run of optional assignments. *)
Definition last_set (d : Z) (l : list (option Z)) : Z :=
  fold_left (fun acc o => default acc o) l d.

(** [str(z)], the decimal notation of an integer. *)
Definition str (z : Z) : string := NilZero.string_of_int (Z.to_int z).

(** The number of digits of that notation. *)
Definition ndigits (z : Z) : N := N.of_nat (String.length (str (Z.abs z))).

(** The value of a digit sequence read from the left, starting from [acc]. *)
Fixpoint uint_value (d : Decimal.uint) (acc : Z) : Z :=
  match d with
  | Decimal.Nil => acc
  | Decimal.D0 d => uint_value d (10 * acc + 0)
  | Decimal.D1 d => uint_value d (10 * acc + 1)
  | Decimal.D2 d => uint_value d (10 * acc + 2)
  | Decimal.D3 d => uint_value d (10 * acc + 3)
  | Decimal.D4 d => uint_value d (10 * acc + 4)
  | Decimal.D5 d => uint_value d (10 * acc + 5)
  | Decimal.D6 d => uint_value d (10 * acc + 6)
  | Decimal.D7 d => uint_value d (10 * acc + 7)
  | Decimal.D8 d => uint_value d (10 * acc + 8)
  | Decimal.D9 d => uint_value d (10 * acc + 9)
  end.

(** No token of the descriptor sets the rate: every token that starts with
    [rate=] has a missing value or one that [int] refuses. *)
Definition rate_unparsable (mime : string) : Prop :=
  Forall (fun param => rate_of_param param = None) (split ";" mime).

(** No token of the descriptor sets the bits per sample. *)
Definition bits_unparsable (mime : string) : Prop :=
  Forall (fun param => bits_of_param param = None) (split ";" mime).

(** The header of the scenario of C3, byte by byte. *)
Definition l24_48000_header : list byte :=
  [x52; x49; x46; x46]      (* RIFF *)
  ++ [x88; x00; x00; x00]   (* overall size 136 *)
  ++ [x57; x41; x56; x45]   (* WAVE *)
  ++ [x66; x6d; x74; x20]   (* fmt, space *)
  ++ [x10; x00; x00; x00]   (* size of the format chunk 16 *)
  ++ [x01; x00]             (* audio format 1 *)
  ++ [x01; x00]             (* channels 1 *)
  ++ [x80; xbb; x00; x00]   (* sample rate 48000 *)
  ++ [x80; x32; x02; x00]   (* byte rate 144000 *)
  ++ [x03; x00]             (* block align 3 *)
  ++ [x18; x00]             (* bits per sample 24 *)
  ++ [x64; x61; x74; x61]   (* data *)
  ++ [x64; x00; x00; x00].  (* data size 100 *)

(** [bs[off : off + n]] *)
Definition slice (off n : nat) (bs : list byte) : list byte :=
  firstn n (skipn off bs).

(** A chunk whose first candidate has content with the parts [ps]. *)
Definition chunk_with_parts (ps : list Part) (others : list Candidate)
    : Chunk :=
  {| candidates :=
       Some ({| content := Some {| parts := Some ps |} |} :: others) |}.

(** A part that carries audio bytes under a media type. *)
Definition audio_part (payload : list byte) (mime : string) : Part :=
  {| inline_data := Some {| data := Some payload; mime_type := Some mime |} |}.

(** The part carries no inline audio data: there is no inline blob, or the
    blob has no bytes. *)
Definition no_audio (p : Part) : Prop :=
  inline_data p = None
  \/ exists blob, inline_data p = Some blob
                  /\ (data blob = None \/ data blob = Some []).

(** The chunks that are no sound data: a field on the way to the first part
    is absent, or that part carries no audio. *)
Inductive skippable : Chunk -> Prop :=
| skip_candidates : skippable {| candidates := None |}
| skip_content others :
    skippable {| candidates := Some ({| content := None |} :: others) |}
| skip_parts others :
    skippable
      {| candidates :=
           Some ({| content := Some {| parts := None |} |} :: others) |}
| skip_part p rest others :
    no_audio p -> skippable (chunk_with_parts (p :: rest) others).

(** A type table with two entries, for the examples. *)
Definition sample_guess_extension (type : string) : option string :=
  if String.eqb (lower type) "audio/x-wav" then Some ".wav"
  else if String.eqb (lower type) "audio/mpeg" then Some ".mp3"
  else None.

(** The pieces of the container in the order of the format string. *)
Definition wav_pieces (bits rate : Z) (payload : list byte)
    : list (list byte) :=
  [ b "RIFF"; le_split 4 (36 + Z.of_nat (length payload)); b "WAVE";
    b "fmt "; le_split 4 16; le_split 2 1; le_split 2 1;
    le_split 4 rate; le_split 4 (rate * (1 * (bits / 8)));
    le_split 2 (1 * (bits / 8)); le_split 2 bits;
    b "data"; le_split 4 (Z.of_nat (length payload)); payload ].

(** A chunk that makes the loop body raise. *)
Inductive malformed : Chunk -> exn -> Prop :=
| empty_candidates : malformed {| candidates := Some [] |} IndexError
| empty_parts others : malformed (chunk_with_parts [] others) IndexError
| missing_type payload rest others :
    payload <> [] ->
    malformed
      (chunk_with_parts
         ({| inline_data :=
               Some {| data := Some payload; mime_type := None |} |} :: rest)
         others)
      AttributeError.

(** The chunk that carries [payload] under the type [mime] and nothing
    else. *)
Definition audio_chunk (item : list byte * string) : Chunk :=
  chunk_with_parts [audio_part item.1 item.2] [].

(** * Properties *)

(** ** The container encoder *)

Lemma Ok_inj {A} (x y : A) : Ok x = Ok y -> x = y.
Proof. congruence. Qed.

Lemma getitem_bits bits rate :
  getitem (params bits rate) "bits_per_sample" = Ok bits.
Proof. unfold getitem, params. by rewrite lookup_insert_eq. Qed.

Lemma getitem_rate bits rate : getitem (params bits rate) "rate" = Ok rate.
Proof.
  unfold getitem, params.
  rewrite lookup_insert_ne by discriminate.
  by rewrite lookup_singleton_eq.
Qed.

Lemma fits_range n v : fits n v = true <-> 0 <= v < 2 ^ (8 * Z.of_nat n).
Proof. unfold fits. rewrite andb_true_iff, Z.leb_le, Z.ltb_lt. tauto. Qed.

Lemma le_combine_split_fits n v :
  fits n v = true -> le_combine (le_split n v) = v.
Proof.
  intros Hv%fits_range. rewrite le_combine_split.
  apply Z.mod_small. by rewrite Z.mul_comm.
Qed.

Lemma length_wav_header bits rate size :
  length (wav_header bits rate size) = 44%nat.
Proof.
  unfold wav_header. rewrite !length_app, !length_le_split. reflexivity.
Qed.

(** What [encode] returns, for every payload and every pair of parameters. *)
Lemma encode_params audio_data bits rate :
  encode audio_data (params bits rate) =
  if header_fits bits rate (Z.of_nat (length audio_data))
  then Ok (wav_header bits rate (Z.of_nat (length audio_data)) ++ audio_data)
  else Raise StructError.
Proof.
  unfold encode. rewrite getitem_bits, getitem_rate.
  unfold header_fits, wav_header.
  cbn [struct_pack pack_field mbind result_bind bind]. unfold pack_uint.
  change (fits 4 16) with true. change (fits 2 1) with true.
  repeat match goal with
         | |- context [fits ?n ?v] =>
             destruct (fits n v); cbn [mbind result_bind bind andb]
         end;
    rewrite ?app_nil_r; reflexivity.
Qed.

Lemma le_field_at pre n v post :
  fits n v = true ->
  le_field (length pre) n (pre ++ le_split n v ++ post) = v.
Proof.
  intros Hv. unfold le_field.
  rewrite drop_app_length.
  rewrite take_app_length' by (symmetry; apply length_le_split).
  by apply le_combine_split_fits.
Qed.

(** The two size fields and the length of a container that [encode] built. *)
Lemma wav_size_fields bits rate payload :
  let size := Z.of_nat (length payload) in
  let out := wav_header bits rate size ++ payload in
  fits 4 (36 + size) = true -> fits 4 size = true ->
  le_field 40 4 out = size /\ le_field 4 4 out = 36 + size
  /\ length out = (44 + length payload)%nat.
Proof.
  intros size out Hchunk Hdata. subst out. split; [|split].
  - unfold wav_header. rewrite !app_assoc.
    rewrite <- (app_assoc _ (le_split 4 size) payload).
    match goal with
    | |- le_field _ _ (?pre ++ _) = _ =>
        replace 40%nat with (length pre)
          by (rewrite !length_app, !length_le_split; reflexivity)
    end.
    by apply le_field_at.
  - unfold wav_header. rewrite <- !app_assoc.
    change 4%nat with (length (b "RIFF")) at 1.
    by apply le_field_at.
  - by rewrite length_app, length_wav_header.
Qed.

(** C4, as stated, fails: with 65536 bits per sample at rate 1 every header
    field lies within 32 bits, yet bits per sample does not fit its two-byte
    slot and [encode] raises [struct.error] instead of returning bytes. *)
Lemma encode_wide_bits_raises :
  valid_in_32_bits 65536 1 (Z.of_nat (length (@nil byte)))
  /\ encode [] (params 65536 1) = Raise StructError.
Proof.
  split.
  - unfold valid_in_32_bits. repeat split; vm_compute; congruence.
  - rewrite encode_params. reflexivity.
Qed.

Lemma valid_in_slots_fits bits rate size :
  valid_in_slots bits rate size -> header_fits bits rate size = true.
Proof.
  unfold valid_in_slots, header_fits. intros H.
  rewrite !andb_true_iff, !fits_range.
  change (2 ^ (8 * Z.of_nat 4)) with (2 ^ 32).
  change (2 ^ (8 * Z.of_nat 2)) with (2 ^ 16). tauto.
Qed.

(** C4 (amended): for every payload and all parameters with bits per sample
    positive and divisible by 8, a positive sample rate and every header
    field within the range of its own slot (32 bits for the chunk size, the
    sample rate, the byte rate and the data size, 16 bits for the block
    align and the bits per sample), [encode] returns bytes whose four
    little-endian bytes at offset 40 decode to [len(payload)], whose four
    little-endian bytes at offset 4 decode to [36 + len(payload)], and whose
    length is [44 + len(payload)]. *)
Theorem encode_size_roundtrip (payload : list byte) (bits rate : Z) :
  valid_in_slots bits rate (Z.of_nat (length payload)) ->
  exists out,
    encode payload (params bits rate) = Ok out
    /\ le_field 40 4 out = Z.of_nat (length payload)
    /\ le_field 4 4 out = 36 + Z.of_nat (length payload)
    /\ length out = (44 + length payload)%nat.
Proof.
  intros Hfits%valid_in_slots_fits.
  exists (wav_header bits rate (Z.of_nat (length payload)) ++ payload).
  rewrite encode_params, Hfits. split; [reflexivity|].
  unfold header_fits in Hfits. rewrite !andb_true_iff in Hfits.
  apply wav_size_fields; tauto.
Qed.

Lemma encode_size_roundtrip_witness :
  exists out,
    encode (repeat x07 5) (params 16 24000) = Ok out
    /\ le_field 40 4 out = 5 /\ le_field 4 4 out = 41
    /\ length out = 49%nat.
Proof.
  apply (encode_size_roundtrip (repeat x07 5) 16 24000).
  unfold valid_in_slots. repeat split; vm_compute; congruence.
Defined.

(** ** Characters and strings *)

Lemma int_space_isspace c : int_space c = true -> isspace c = true.
Proof. by_cases_on_char c. Qed.

Lemma digit_not_space c d : digit_of c = Some d -> isspace c = false.
Proof. by_cases_on_char c. Qed.

Lemma digit_int_char c d : digit_of c = Some d -> int_char c = true.
Proof. by_cases_on_char c. Qed.

Lemma int_space_int_char c : int_space c = true -> int_char c = true.
Proof. by_cases_on_char c. Qed.

Lemma append_cons c s t : String c s +:+ t = String c (s +:+ t).
Proof. reflexivity. Qed.

Lemma append_empty_l s : "" +:+ s = s.
Proof. reflexivity. Qed.

Lemma append_assoc s t u : (s +:+ t) +:+ u = s +:+ t +:+ u.
Proof.
  induction s as [|c s IH]; [reflexivity|]. by rewrite !append_cons, IH.
Qed.

Lemma occurs_append c s t : occurs c (s +:+ t) = occurs c s || occurs c t.
Proof.
  induction s as [|x s IH]; [reflexivity|].
  rewrite append_cons. cbn. by rewrite IH, orb_assoc.
Qed.

Lemma all_chars_occurs p c s :
  all_chars p s = true -> p c = false -> occurs c s = false.
Proof.
  intros Hs Hc. induction s as [|x s IH]; [reflexivity|].
  cbn in *. apply andb_true_iff in Hs as [Hx Hs].
  rewrite (IH Hs), orb_false_r.
  destruct (Ascii.eqb_spec x c); congruence.
Qed.

(** *** [split] *)

Lemma split_absent sep s : occurs sep s = false -> split sep s = [s].
Proof.
  induction s as [|c s IH]; [reflexivity|]. cbn.
  intros [Hc Hs]%orb_false_iff. by rewrite Hc, (IH Hs).
Qed.

Lemma split_first sep s t :
  occurs sep s = false -> split sep (s +:+ String sep t) = s :: split sep t.
Proof.
  induction s as [|c s IH]; rewrite ?append_cons, ?append_empty_l; cbn.
  - intros _. by rewrite Ascii.eqb_refl.
  - intros [Hc Hs]%orb_false_iff. by rewrite Hc, (IH Hs).
Qed.

(** *** [strip] *)

Lemma rstrip_cons c s :
  isspace c = false -> rstrip (String c s) = String c (rstrip s).
Proof. intros Hc. cbn. rewrite Hc. by destruct (rstrip s). Qed.

Lemma rstrip_space_cons c s :
  isspace c = true ->
  rstrip (String c s) =
  match rstrip s with EmptyString => EmptyString | r => String c r end.
Proof. intros Hc. cbn. by rewrite Hc. Qed.

Lemma all_space_rstrip s : all_space s = true -> rstrip s = "".
Proof.
  induction s as [|c s IH]; [reflexivity|]. cbn.
  intros [Hc Hs]%andb_true_iff.
  by rewrite (IH Hs), (int_space_isspace _ Hc).
Qed.

Lemma skip_space_rstrip s : skip_space (rstrip s) = rstrip (skip_space s).
Proof.
  induction s as [|c s IH]; [reflexivity|].
  cbn [skip_space]. destruct (int_space c) eqn:Hc.
  - rewrite <- IH, rstrip_space_cons by by apply int_space_isspace.
    destruct (rstrip s); [reflexivity|]. cbn [skip_space]. by rewrite Hc.
  - cbn [rstrip]. destruct (rstrip s).
    + destruct (isspace c); [reflexivity|]. cbn. by rewrite Hc.
    + cbn. by rewrite Hc.
Qed.

(** *** [int] *)

Lemma int_unsigned_cases s :
  (exists v, int_unsigned s = Ok v) \/ int_unsigned s = Raise ValueError.
Proof.
  unfold int_unsigned. destruct s as [|c s]; [by right|].
  destruct (digit_of c); [|by right].
  destruct (int_digits _ _ _ _) as [[v n]|]; [|by right].
  destruct (_ <? _)%N; eauto.
Qed.

(** [int] raises nothing but [ValueError]. *)
Lemma int_cases s : (exists v, int s = Ok v) \/ int s = Raise ValueError.
Proof.
  unfold int, int_signed. destruct (skip_space s) as [|c t].
  - apply int_unsigned_cases.
  - destruct (Ascii.eqb c "+"); [apply int_unsigned_cases|].
    destruct (Ascii.eqb c "-"); [|apply int_unsigned_cases].
    destruct (int_unsigned_cases t) as [[v ->]| ->]; cbn; eauto.
Qed.

Lemma int_digits_rstrip s u acc n r :
  int_digits s u acc n = Some r -> int_digits (rstrip s) u acc n = Some r.
Proof.
  revert u acc n. induction s as [|c s IH]; intros u acc n; [done|].
  cbn [int_digits]. destruct (digit_of c) as [d|] eqn:Hd.
  - intros H. rewrite rstrip_cons by by eapply digit_not_space.
    cbn [int_digits]. rewrite Hd. by apply IH.
  - destruct (Ascii.eqb_spec c "_") as [->|Hc].
    + destruct u; [done|]. intros H.
      rewrite rstrip_cons by reflexivity. cbn [int_digits].
      change (digit_of "_") with (@None Z). cbn. by apply IH.
    + destruct u; [done|].
      destruct (all_space (String c s)) eqn:Hs; [|done].
      intros H. by rewrite (all_space_rstrip _ Hs).
Qed.

Lemma int_unsigned_rstrip s v :
  int_unsigned s = Ok v -> int_unsigned (rstrip s) = Ok v.
Proof.
  unfold int_unsigned. destruct s as [|c s]; [done|].
  destruct (digit_of c) as [d|] eqn:Hd; [|done].
  destruct (int_digits _ _ _ _) as [r|] eqn:Hr; [|done].
  apply int_digits_rstrip in Hr.
  rewrite rstrip_cons in * by by eapply digit_not_space.
  by rewrite Hd, Hr.
Qed.

Lemma int_signed_rstrip s v :
  int_signed s = Ok v -> int_signed (rstrip s) = Ok v.
Proof.
  unfold int_signed. destruct s as [|c s]; [done|].
  destruct (Ascii.eqb_spec c "+") as [->|Hplus].
  { intros H%int_unsigned_rstrip. rewrite rstrip_cons by reflexivity.
    by rewrite Ascii.eqb_refl. }
  destruct (Ascii.eqb_spec c "-") as [->|Hminus].
  { destruct (int_unsigned s) as [w|] eqn:Hw; [|done].
    apply int_unsigned_rstrip in Hw. intros H.
    rewrite rstrip_cons by reflexivity. cbn. by rewrite Hw. }
  intros H. pose proof H as H'%int_unsigned_rstrip.
  destruct (rstrip (String c s)) as [|c' s'] eqn:Hr; [done|].
  assert (c' = c) as ->.
  { cbn in Hr. destruct (rstrip s), (isspace c); congruence. }
  destruct (Ascii.eqb_spec c "+"); [done|].
  by destruct (Ascii.eqb_spec c "-").
Qed.

(** Trailing whitespace that [strip] removes does not change what [int]
    reads. *)
Lemma int_rstrip s v : int s = Ok v -> int (rstrip s) = Ok v.
Proof.
  unfold int. rewrite skip_space_rstrip. apply int_signed_rstrip.
Qed.

Lemma all_space_int_chars s :
  all_space s = true -> all_chars int_char s = true.
Proof.
  induction s as [|c s IH]; [reflexivity|]. cbn.
  intros [Hc Hs]%andb_true_iff.
  by rewrite (int_space_int_char _ Hc), (IH Hs).
Qed.

Lemma int_digits_chars s u acc n r :
  int_digits s u acc n = Some r -> all_chars int_char s = true.
Proof.
  revert u acc n. induction s as [|c s IH]; intros u acc n; [done|].
  cbn [int_digits all_chars]. destruct (digit_of c) as [d|] eqn:Hd.
  - intros H. rewrite (digit_int_char _ _ Hd). by eapply IH.
  - destruct (Ascii.eqb_spec c "_") as [->|Hc].
    + destruct u; [done|]. intros H. cbn [andb].
      change (int_char "_") with true. by eapply IH.
    + destruct u; [done|].
      destruct (all_space (String c s)) eqn:Hs; [|done].
      intros _. by apply (all_space_int_chars (String c s)).
Qed.

Lemma int_unsigned_chars s v :
  int_unsigned s = Ok v -> all_chars int_char s = true.
Proof.
  unfold int_unsigned. destruct s as [|c s]; [done|].
  destruct (digit_of c); [|done].
  destruct (int_digits _ _ _ _) as [r|] eqn:Hr; [|done].
  intros _. by eapply int_digits_chars.
Qed.

Lemma int_signed_chars s v :
  int_signed s = Ok v -> all_chars int_char s = true.
Proof.
  unfold int_signed. destruct s as [|c s]; [done|].
  destruct (Ascii.eqb_spec c "+") as [->|Hplus].
  { intros H%int_unsigned_chars. cbn [all_chars].
    change (int_char "+") with true. by rewrite H. }
  destruct (Ascii.eqb_spec c "-") as [->|Hminus].
  { destruct (int_unsigned s) as [w|] eqn:Hw; [|done].
    apply int_unsigned_chars in Hw. intros _. cbn [all_chars].
    change (int_char "-") with true. by rewrite Hw. }
  apply int_unsigned_chars.
Qed.

Lemma skip_space_chars s :
  all_chars int_char (skip_space s) = true -> all_chars int_char s = true.
Proof.
  induction s as [|c s IH]; [done|]. cbn [skip_space].
  destruct (int_space c) eqn:Hc; [|done].
  intros H. cbn. by rewrite (int_space_int_char _ Hc), (IH H).
Qed.

(** A literal that [int] accepts consists of whitespace, signs, digits and
    underscores. *)
Lemma int_chars s v : int s = Ok v -> all_chars int_char s = true.
Proof. intros H. apply skip_space_chars. by eapply int_signed_chars. Qed.

Lemma int_no_separator s v c :
  int s = Ok v -> int_char c = false -> occurs c s = false.
Proof. intros H Hc. eapply all_chars_occurs; [by eapply int_chars|done]. Qed.

(** ** The parser, token by token *)

(** Reading an indexed element and converting it under
    [except (ValueError, IndexError)]. *)
Lemma try_read (l : list string) (f : Z -> Z * Z) (d : Z * Z) :
  try_except (x ← index l 1; v ← int x; Ok (f v)) value_or_index_error (Ok d)
  = Ok match l !! 1%nat with
       | Some x => match int x with Ok v => f v | Raise _ => d end
       | None => d
       end.
Proof.
  unfold index. destruct (l !! 1%nat) as [x|]; [|reflexivity].
  cbn. by destruct (int_cases x) as [[v ->]| ->].
Qed.

Lemma parse_param_eq bits rate param :
  parse_param (bits, rate) param =
  Ok (default bits (bits_of_param param), default rate (rate_of_param param)).
Proof.
  unfold parse_param, bits_of_param, rate_of_param.
  destruct (startswith (lower (strip param)) "rate=").
  - rewrite (try_read _ (fun v => (bits, v))).
    destruct (_ !! _) as [x|]; [|done]. by destruct (int x).
  - destruct (startswith (strip param) "audio/L"); [|done].
    rewrite (try_read _ (fun v => (v, rate))).
    destruct (_ !! _) as [x|]; [|done]. by destruct (int x).
Qed.

(** No step of the loop raises. *)
Lemma for_each_parse_param st l :
  exists bits rate, for_each parse_param st l = Ok (bits, rate).
Proof.
  revert st. induction l as [|p l IH]; intros [bits rate];
    cbn [for_each]; [eauto|].
  rewrite parse_param_eq. cbn [bind]. apply IH.
Qed.

Lemma parse_audio_mime_type_eq mime bits rate :
  for_each parse_param (16, 24000) (split ";" mime) = Ok (bits, rate) ->
  parse_audio_mime_type mime = Ok (params bits rate).
Proof. unfold parse_audio_mime_type. by intros ->. Qed.

Lemma parse_audio_mime_type_total mime :
  exists bits rate, parse_audio_mime_type mime = Ok (params bits rate).
Proof.
  destruct (for_each_parse_param (16, 24000) (split ";" mime))
    as (bits & rate & H).
  exists bits, rate. by apply parse_audio_mime_type_eq.
Qed.

Lemma params_inj bits rate bits' rate' :
  params bits rate = params bits' rate' -> bits = bits' /\ rate = rate'.
Proof.
  intros H. split.
  - apply (f_equal (fun d => getitem d "bits_per_sample")) in H.
    rewrite !getitem_bits in H. congruence.
  - apply (f_equal (fun d => getitem d "rate")) in H.
    rewrite !getitem_rate in H. congruence.
Qed.

Lemma for_each_parse_param_eq bits rate l :
  for_each parse_param (bits, rate) l =
  Ok (last_set bits (bits_of_param <$> l), last_set rate (rate_of_param <$> l)).
Proof.
  revert bits rate. induction l as [|p l IH]; intros bits rate; [done|].
  cbn [for_each]. rewrite parse_param_eq. cbn [bind]. by rewrite IH.
Qed.

(** The parser returns the last value that a token set for each field, and
    the default where no token set one. *)
Lemma parse_audio_mime_type_last mime :
  parse_audio_mime_type mime =
  Ok (params (last_set 16 (bits_of_param <$> split ";" mime))
             (last_set 24000 (rate_of_param <$> split ";" mime))).
Proof. apply parse_audio_mime_type_eq, for_each_parse_param_eq. Qed.

Lemma last_set_none d (l : list (option Z)) :
  Forall (fun o => o = None) l -> last_set d l = d.
Proof. unfold last_set. induction 1 as [|o l -> _ IH]; [done|]. apply IH. Qed.

Lemma strip_rate v : strip ("rate=" +:+ v) = "rate=" +:+ rstrip v.
Proof.
  unfold strip. rewrite !append_cons, append_empty_l. cbn [lstrip].
  change (isspace "r") with false. cbn iota.
  by rewrite !rstrip_cons by reflexivity.
Qed.

Lemma strip_audio v : strip ("audio/L" +:+ v) = "audio/L" +:+ rstrip v.
Proof.
  unfold strip. rewrite !append_cons, append_empty_l. cbn [lstrip].
  change (isspace "a") with false. cbn iota.
  by rewrite !rstrip_cons by reflexivity.
Qed.

Lemma rate_of_rate_token v :
  rate_of_param ("rate=" +:+ v) =
  match int (rstrip v) with Ok z => Some z | Raise _ => None end.
Proof. unfold rate_of_param. rewrite strip_rate. reflexivity. Qed.

Lemma bits_of_rate_token v : bits_of_param ("rate=" +:+ v) = None.
Proof. unfold bits_of_param. rewrite strip_rate. reflexivity. Qed.

Lemma bits_of_audio_token v :
  bits_of_param ("audio/L" +:+ v) =
  match int (rstrip v) with Ok z => Some z | Raise _ => None end.
Proof. unfold bits_of_param. rewrite strip_audio. reflexivity. Qed.

Lemma rate_of_audio_token v : rate_of_param ("audio/L" +:+ v) = None.
Proof. unfold rate_of_param. rewrite strip_audio. reflexivity. Qed.

(** ** Decimal notation *)

Lemma int_digits_uint d acc n :
  int_digits (NilEmpty.string_of_uint d) false acc n
  = Some (uint_value d acc, (n + N.of_nat (Decimal.nb_digits d))%N).
Proof.
  revert acc n.
  induction d as [|d IH|d IH|d IH|d IH|d IH|d IH|d IH|d IH|d IH|d IH];
    intros acc n;
    cbn [NilEmpty.string_of_uint int_digits uint_value Decimal.nb_digits];
    [ by rewrite N.add_0_r | .. ];
    match goal with
    | |- context [digit_of ?c] =>
        let v := eval vm_compute in (digit_of c) in
        change (digit_of c) with v
    end;
    cbn iota; rewrite IH; do 2 f_equal; lia.
Qed.

Lemma uint_value_pos d acc :
  uint_value d (Z.pos acc) = Z.pos (Pos.of_uint_acc d acc).
Proof.
  revert acc.
  induction d as [|d IH|d IH|d IH|d IH|d IH|d IH|d IH|d IH|d IH|d IH];
    intros acc; cbn [uint_value Pos.of_uint_acc]; [done|..];
    rewrite <- IH; f_equal; lia.
Qed.

Lemma uint_value_0 d : uint_value d 0 = Z.of_uint d.
Proof.
  unfold Z.of_uint.
  induction d as [|d IH|d IH|d IH|d IH|d IH|d IH|d IH|d IH|d IH|d IH];
    cbn [uint_value Pos.of_uint]; [done | exact IH | ..];
    apply uint_value_pos.
Qed.

Lemma length_string_of_uint d :
  String.length (NilEmpty.string_of_uint d) = Decimal.nb_digits d.
Proof. induction d; cbn; congruence. Qed.

Lemma digit_not_sign c d :
  digit_of c = Some d ->
  int_space c = false /\ Ascii.eqb c "+" = false /\ Ascii.eqb c "-" = false.
Proof. by_cases_on_char c. Qed.

Lemma string_of_uint_head d :
  d <> Decimal.Nil ->
  exists c t v, NilEmpty.string_of_uint d = String c t /\ digit_of c = Some v.
Proof. destruct d; [done|..]; intros _; cbn; eauto. Qed.

Lemma int_unsigned_uint d :
  d <> Decimal.Nil ->
  (N.of_nat (Decimal.nb_digits d) <= int_max_str_digits)%N ->
  int_unsigned (NilEmpty.string_of_uint d) = Ok (Z.of_uint d).
Proof.
  intros Hd Hn. unfold int_unsigned.
  destruct (string_of_uint_head d Hd) as (c & t & v & E & Hc).
  rewrite E, Hc, <- E, int_digits_uint, uint_value_0, N.add_0_l.
  by apply N.ltb_ge in Hn as ->.
Qed.

Lemma int_string_of_uint d :
  d <> Decimal.Nil ->
  (N.of_nat (Decimal.nb_digits d) <= int_max_str_digits)%N ->
  int (NilEmpty.string_of_uint d) = Ok (Z.of_uint d)
  /\ int (String "-" (NilEmpty.string_of_uint d)) = Ok (- Z.of_uint d).
Proof.
  intros Hd Hn. pose proof (int_unsigned_uint d Hd Hn) as H.
  destruct (string_of_uint_head d Hd) as (c & t & v & E & Hc).
  destruct (digit_not_sign _ _ Hc) as (Hs & Hplus & Hminus).
  unfold int. split.
  - rewrite E in *. cbn [skip_space]. rewrite Hs.
    unfold int_signed. by rewrite Hplus, Hminus.
  - cbn [skip_space]. change (int_space "-") with false. cbn iota.
    unfold int_signed. change (Ascii.eqb "-" "+") with false.
    rewrite Ascii.eqb_refl. cbn iota. by rewrite H.
Qed.

(** [int] reads the decimal notation of every integer of at most
    [int_max_str_digits] digits, and reads it as that integer. *)
Lemma int_str z : (ndigits z <= int_max_str_digits)%N -> int (str z) = Ok z.
Proof.
  unfold ndigits, str. destruct z as [|p|p]; [reflexivity|..];
    cbn [Z.to_int NilZero.string_of_int];
    change (NilZero.string_of_int (Z.to_int (Z.abs _)))
      with (NilZero.string_of_uint (Pos.to_uint p));
    pose proof (DecimalPos.Unsigned.to_uint_nonnil p) as Hp;
    pose proof (DecimalPos.Unsigned.of_to p) as Hv;
    assert (NilZero.string_of_uint (Pos.to_uint p)
            = NilEmpty.string_of_uint (Pos.to_uint p)) as ->
      by (by destruct (Pos.to_uint p));
    rewrite length_string_of_uint; intros Hn;
    destruct (int_string_of_uint _ Hp Hn) as [Hpos Hneg];
    unfold Z.of_uint in *; rewrite Hv in *; [exact Hpos | exact Hneg].
Qed.

(** ** The digits of an integer and its size *)

Lemma uint_value_lower d acc :
  0 <= acc -> acc * 10 ^ Z.of_nat (Decimal.nb_digits d) <= uint_value d acc.
Proof.
  revert acc.
  induction d as [|d IH|d IH|d IH|d IH|d IH|d IH|d IH|d IH|d IH|d IH];
    intros acc Hacc; cbn [uint_value Decimal.nb_digits];
    [ rewrite Z.pow_0_r; lia | .. ];
    rewrite Nat2Z.inj_succ, Z.pow_succ_r by lia;
    (etrans; [|apply IH; lia]);
    pose proof (Z.pow_nonneg 10 (Z.of_nat (Decimal.nb_digits d))); nia.
Qed.

Lemma nzhead_not_D0 d e : Decimal.nzhead d <> Decimal.D0 e.
Proof. induction d; cbn; congruence. Qed.

Lemma to_uint_digits p k :
  Z.pos p < 10 ^ Z.of_nat k -> (Decimal.nb_digits (Pos.to_uint p) <= k)%nat.
Proof.
  intros Hp.
  pose proof (DecimalPos.Unsigned.of_to p) as Hv.
  pose proof (DecimalPos.Unsigned.to_of (Pos.to_uint p)) as Hnorm.
  rewrite Hv in Hnorm. cbn [N.to_uint] in Hnorm.
  pose proof (DecimalPos.Unsigned.to_uint_nonzero p) as Hnz.
  assert (Z.pos p = uint_value (Pos.to_uint p) 0) as Hval
    by (rewrite uint_value_0; unfold Z.of_uint; by rewrite Hv).
  destruct (Pos.to_uint p) as [|d|d|d|d|d|d|d|d|d|d] eqn:E;
    [ cbn; lia
    | exfalso; unfold Decimal.unorm in Hnorm; cbn [Decimal.nzhead] in Hnorm;
      destruct (Decimal.nzhead d) eqn:Hd;
      first [ by apply Hnz | by eapply nzhead_not_D0 | congruence ]
    | .. ];
    cbn [uint_value Decimal.nb_digits] in *;
    match type of Hval with
    | _ = uint_value d ?a =>
        pose proof (uint_value_lower d a ltac:(lia)) as Hlow
    end;
    assert (10 ^ Z.of_nat (Decimal.nb_digits d) < 10 ^ Z.of_nat k) as Hlt
      by (pose proof (Z.pow_nonneg 10 (Z.of_nat (Decimal.nb_digits d)));
          nia);
    apply Z.pow_lt_mono_r_iff in Hlt; lia.
Qed.

(** An integer below [10 ^ 4300] in absolute value is within the limit on
    digits. *)
Lemma ndigits_limit z :
  Z.abs z < 10 ^ 4300 -> (ndigits z <= int_max_str_digits)%N.
Proof.
  unfold ndigits, int_max_str_digits, str. intros Hz.
  destruct z as [|p|p]; [by vm_compute|..];
    change (NilZero.string_of_int (Z.to_int (Z.abs _)))
      with (NilZero.string_of_uint (Pos.to_uint p));
    pose proof (DecimalPos.Unsigned.to_uint_nonnil p) as Hp;
    assert (NilZero.string_of_uint (Pos.to_uint p)
            = NilEmpty.string_of_uint (Pos.to_uint p)) as ->
      by (by destruct (Pos.to_uint p));
    rewrite length_string_of_uint;
    pose proof (to_uint_digits p 4300 Hz); lia.
Qed.

(** ** The parser: the properties of the design document *)

Lemma split_two_tokens s t :
  occurs ";" s = false -> occurs ";" t = false ->
  split ";" (s +:+ String ";" t) = [s; t].
Proof. intros Hs Ht. by rewrite split_first, split_absent. Qed.

(** The parser on a descriptor of two tokens, [audio/L] followed by any text
    and [rate=] followed by any text. *)
Lemma parse_bits_rate_tokens (sn sr : string) :
  occurs ";" sn = false -> occurs ";" sr = false ->
  parse_audio_mime_type ("audio/L" +:+ sn +:+ ";rate=" +:+ sr)
  = Ok (params match int (rstrip sn) with Ok n => n | Raise _ => 16 end
               match int (rstrip sr) with Ok r => r | Raise _ => 24000 end).
Proof.
  intros Hn Hr. rewrite parse_audio_mime_type_last.
  rewrite <- append_assoc.
  change (";rate=" +:+ sr) with (String ";" ("rate=" +:+ sr)).
  rewrite split_two_tokens by (rewrite occurs_append, ?Hn, ?Hr; reflexivity).
  cbn [fmap list_fmap].
  rewrite bits_of_audio_token, rate_of_audio_token.
  rewrite bits_of_rate_token, rate_of_rate_token.
  by destruct (int (rstrip sn)), (int (rstrip sr)).
Qed.

(** C2: for every descriptor [audio/L{n};rate={r}] in which the two literals
    are integer literals, that is strings that [int] converts, to [n] and to
    [r], the parser returns exactly [{bits_per_sample: n, rate: r}]. *)
Theorem parse_well_formed (sn sr : string) (n r : Z) :
  int sn = Ok n -> int sr = Ok r ->
  parse_audio_mime_type ("audio/L" +:+ sn +:+ ";rate=" +:+ sr)
  = Ok (params n r).
Proof.
  intros Hn Hr.
  rewrite parse_bits_rate_tokens by by eapply int_no_separator.
  by rewrite (int_rstrip _ _ Hn), (int_rstrip _ _ Hr).
Qed.

Lemma parse_well_formed_witness :
  parse_audio_mime_type "audio/L16;rate=24000" = Ok (params 16 24000).
Proof.
  exact (parse_well_formed "16" "24000" 16 24000 eq_refl eq_refl).
Defined.

(** The integer literals include the decimal notation of every integer
    below [10 ^ 4300] in absolute value, of either sign. *)
Corollary parse_decimal (n r : Z) :
  Z.abs n < 10 ^ 4300 -> Z.abs r < 10 ^ 4300 ->
  parse_audio_mime_type ("audio/L" +:+ str n +:+ ";rate=" +:+ str r)
  = Ok (params n r).
Proof.
  intros Hn%ndigits_limit%int_str Hr%ndigits_limit%int_str.
  rewrite parse_bits_rate_tokens by by eapply int_no_separator.
  by rewrite (int_rstrip _ _ Hn), (int_rstrip _ _ Hr).
Qed.

(** A [rate=] token whose value [int] refuses, the missing value included,
    sets nothing; likewise an [audio/L] token. *)
Lemma malformed_rate_token v :
  is_ok (int (rstrip v)) = false -> rate_of_param ("rate=" +:+ v) = None.
Proof. rewrite rate_of_rate_token. by destruct (int (rstrip v)). Qed.

Lemma malformed_bits_token v :
  is_ok (int (rstrip v)) = false -> bits_of_param ("audio/L" +:+ v) = None.
Proof. rewrite bits_of_audio_token. by destruct (int (rstrip v)). Qed.

(** C5: the parser never raises: on every descriptor it returns a
    dictionary with both fields, with 24000 for the rate when no token
    yields a rate and 16 for the bits per sample when no token yields
    them. *)
Theorem parse_never_raises (mime : string) :
  exists bits rate,
    parse_audio_mime_type mime = Ok (params bits rate)
    /\ (rate_unparsable mime -> rate = 24000)
    /\ (bits_unparsable mime -> bits = 16).
Proof.
  eexists _, _. split; [apply parse_audio_mime_type_last|].
  split; intros H; apply last_set_none, Forall_fmap; exact H.
Qed.

(** The malformed descriptors that the design document lists. *)
Lemma parse_malformed_defaults :
  parse_audio_mime_type "" = Ok (params 16 24000)
  /\ parse_audio_mime_type "rate=" = Ok (params 16 24000)
  /\ parse_audio_mime_type "audio/L16;rate=" = Ok (params 16 24000)
  /\ parse_audio_mime_type "audio/L24;rate=fast" = Ok (params 24 24000)
  /\ parse_audio_mime_type "audio/Lpcm;rate=8000" = Ok (params 16 8000)
  /\ parse_audio_mime_type "audio/L;rate" = Ok (params 16 24000).
Proof. repeat split; by apply parse_audio_mime_type_eq. Qed.

Lemma parse_never_raises_witness :
  exists bits rate,
    parse_audio_mime_type "audio/Lpcm;rate=" = Ok (params bits rate)
    /\ rate = 24000 /\ bits = 16.
Proof.
  destruct (parse_never_raises "audio/Lpcm;rate=")
    as (bits & rate & H & Hrate & Hbits).
  exists bits, rate. split; [exact H|]. split.
  - apply Hrate. repeat constructor.
  - apply Hbits. repeat constructor.
Defined.

(** C7, as stated, fails: a negative literal is a literal for [int], so the
    token [rate=-100] sets the rate to -100 instead of leaving the default
    in place. *)
Lemma negative_rate_is_parsed :
  int "-100" = Ok (-100)
  /\ parse_audio_mime_type "rate=-100" = Ok (params 16 (-100))
  /\ parse_audio_mime_type "rate=-100" <> Ok (params 16 24000).
Proof.
  assert (parse_audio_mime_type "rate=-100" = Ok (params 16 (-100))) as H
    by by apply parse_audio_mime_type_eq.
  split; [reflexivity|]. split; [exact H|].
  rewrite H. intros E.
  assert (params 16 (-100) = params 16 24000) as E' by congruence.
  by apply params_inj in E' as [_ ?].
Qed.

(** C7 (amended): for a token that starts, case-insensitively, with [rate=]
    and whose text after the first [=] is [v]: when [int] refuses [v] the
    token is a parse failure and the rate silently keeps its current value;
    when [int] accepts [v], negative values included, the rate becomes that
    value.  The bits per sample are untouched either way. *)
Theorem rate_token_sets_or_keeps (bits rate : Z) (param v : string) :
  startswith (lower (strip param)) "rate=" = true ->
  split1 "=" (strip param) !! 1%nat = Some v ->
  parse_param (bits, rate) param
  = Ok (bits, match int v with Ok z => z | Raise _ => rate end).
Proof.
  intros Hprefix Hv. rewrite parse_param_eq.
  unfold bits_of_param, rate_of_param. rewrite Hprefix, Hv.
  by destruct (int v).
Qed.

Lemma rate_token_sets_or_keeps_witness :
  parse_param (16, 24000) " Rate=-100 " = Ok (16, -100)
  /\ parse_param (16, 24000) "rate=1e3" = Ok (16, 24000).
Proof.
  split.
  - exact (rate_token_sets_or_keeps 16 24000 " Rate=-100 " "-100"
             eq_refl eq_refl).
  - exact (rate_token_sets_or_keeps 16 24000 "rate=1e3" "1e3"
             eq_refl eq_refl).
Defined.

(** A descriptor whose only token is [rate=] followed by the decimal
    notation of an integer, of either sign, yields that integer. *)
Corollary parse_rate_decimal (z : Z) :
  Z.abs z < 10 ^ 4300 ->
  parse_audio_mime_type ("rate=" +:+ str z) = Ok (params 16 z).
Proof.
  intros Hz%ndigits_limit%int_str. rewrite parse_audio_mime_type_last.
  rewrite split_absent.
  - cbn [fmap list_fmap]. rewrite bits_of_rate_token, rate_of_rate_token.
    by rewrite (int_rstrip _ _ Hz).
  - rewrite occurs_append, (int_no_separator _ _ ";" Hz); reflexivity.
Qed.

(** ** The encoder: the properties of the design document *)

(** C3: the descriptor [audio/L24;rate=48000] parses to 24 bits at rate
    48000, and encoding 100 zero bytes with these parameters gives the tags
    and the little-endian fields RIFF, 136, WAVE, fmt, 16, 1, 1, 48000,
    144000, 3, 24, data, 100 in this order, followed by the payload. *)
Theorem l24_48000_scenario :
  let payload := repeat x00 100 in
  parse_audio_mime_type "audio/L24;rate=48000" = Ok (params 24 48000)
  /\ encode payload (params 24 48000) = Ok (l24_48000_header ++ payload)
  /\ convert_to_wav payload "audio/L24;rate=48000"
     = Ok (l24_48000_header ++ payload)
  /\ let out := l24_48000_header ++ payload in
     slice 0 4 out = b "RIFF" /\ le_field 4 4 out = 136
     /\ slice 8 4 out = b "WAVE" /\ slice 12 4 out = b "fmt "
     /\ le_field 16 4 out = 16 /\ le_field 20 2 out = 1
     /\ le_field 22 2 out = 1 /\ le_field 24 4 out = 48000
     /\ le_field 28 4 out = 144000 /\ le_field 32 2 out = 3
     /\ le_field 34 2 out = 24 /\ slice 36 4 out = b "data"
     /\ le_field 40 4 out = 100 /\ skipn 44 out = payload.
Proof.
  intros payload.
  assert (parse_audio_mime_type "audio/L24;rate=48000" = Ok (params 24 48000))
    as Hparse by by apply parse_audio_mime_type_eq.
  assert (encode payload (params 24 48000) = Ok (l24_48000_header ++ payload))
    as Hencode by (rewrite encode_params; by vm_compute).
  split; [exact Hparse|]. split; [exact Hencode|]. split.
  - unfold convert_to_wav. rewrite Hparse. exact Hencode.
  - repeat split; by vm_compute.
Qed.

(** The encoder on an arbitrary dictionary: a missing key apart, the only
    error is [struct.error], raised exactly when an integer does not fit its
    slot. *)
Lemma encode_eq audio_data (parameters : gmap string Z) :
  encode audio_data parameters =
  (bits ← getitem parameters "bits_per_sample";
   rate ← getitem parameters "rate";
   if header_fits bits rate (Z.of_nat (length audio_data))
   then Ok (wav_header bits rate (Z.of_nat (length audio_data)) ++ audio_data)
   else Raise StructError).
Proof.
  pose proof (encode_params audio_data) as H. unfold encode in *.
  destruct (getitem parameters "bits_per_sample") as [bits|] eqn:Hb;
    [|reflexivity].
  destruct (getitem parameters "rate") as [rate|] eqn:Hr; [|reflexivity].
  specialize (H bits rate). rewrite getitem_bits, getitem_rate in H.
  exact H.
Qed.

Lemma encode_length audio_data parameters out :
  encode audio_data parameters = Ok out ->
  length out = (44 + length audio_data)%nat.
Proof.
  rewrite encode_eq.
  destruct (getitem parameters "bits_per_sample") as [bits|]; [|done].
  destruct (getitem parameters "rate") as [rate|]; [|done].
  cbn [mbind result_bind bind].
  destruct (header_fits _ _ _); [|done].
  intros <-%Ok_inj. by rewrite length_app, length_wav_header.
Qed.

(** C6, as stated, fails: the parser produces 65536 bits per sample from the
    descriptor [audio/L65536], and the encoder raises [struct.error] on
    these parameters, for the empty payload already. *)
Lemma encode_raises_on_parsed_params :
  parse_audio_mime_type "audio/L65536" = Ok (params 65536 24000)
  /\ encode [] (params 65536 24000) = Raise StructError
  /\ convert_to_wav [] "audio/L65536" = Raise StructError.
Proof.
  assert (parse_audio_mime_type "audio/L65536" = Ok (params 65536 24000))
    as Hparse by by apply parse_audio_mime_type_eq.
  assert (encode [] (params 65536 24000) = Raise StructError) as Hencode
    by (rewrite encode_params; by vm_compute).
  split; [exact Hparse|]. split; [exact Hencode|].
  unfold convert_to_wav. rewrite Hparse. exact Hencode.
Qed.

(** [convert_to_wav] is the encoder applied to the parsed dictionary, which
    always has both keys. *)
Lemma convert_to_wav_eq payload mime :
  exists bits rate,
    parse_audio_mime_type mime = Ok (params bits rate)
    /\ convert_to_wav payload mime = encode payload (params bits rate).
Proof.
  destruct (parse_audio_mime_type_total mime) as (bits & rate & H).
  exists bits, rate. split; [exact H|]. unfold convert_to_wav. by rewrite H.
Qed.

(** C6 (amended): for every payload and all parameters that the parser
    produces, the encoder returns normally, with the 44-byte header
    followed by the payload, exactly when every integer of the header fits
    its slot (32 bits unsigned for the chunk size, the sample rate, the byte
    rate and the data size, 16 bits unsigned for the block align and the
    bits per sample); otherwise it raises [struct.error].  No other error
    is reachable. *)
Theorem encode_after_parse (payload : list byte) (mime : string) :
  exists bits rate,
    parse_audio_mime_type mime = Ok (params bits rate)
    /\ encode payload (params bits rate)
       = (if header_fits bits rate (Z.of_nat (length payload))
          then Ok (wav_header bits rate (Z.of_nat (length payload)) ++ payload)
          else Raise StructError)
    /\ convert_to_wav payload mime = encode payload (params bits rate).
Proof.
  destruct (convert_to_wav_eq payload mime) as (bits & rate & H & Hconv).
  exists bits, rate. split; [exact H|]. split; [apply encode_params|].
  exact Hconv.
Qed.

(** ** The assembler *)

Section AssemblerFacts.

Variable guess_extension : string -> option string.

Lemma process_chunk_no_audio acc p rest others :
  no_audio p ->
  process_chunk guess_extension acc (chunk_with_parts (p :: rest) others)
  = Ok acc.
Proof.
  destruct p as [inline].
  intros [H | (blob & H & Hdata)]; cbn in H; subst inline; [reflexivity|].
  destruct blob as [d m]. cbn in Hdata. by destruct Hdata; subst d.
Qed.

Lemma process_chunk_skippable acc chunk :
  skippable chunk -> process_chunk guess_extension acc chunk = Ok acc.
Proof.
  destruct 1; [reflexivity..|]. by apply process_chunk_no_audio.
Qed.

Lemma process_chunk_raw acc payload mime rest others :
  payload <> [] -> guess_extension mime = None ->
  process_chunk guess_extension acc
    (chunk_with_parts (audio_part payload mime :: rest) others)
  = (wav ← convert_to_wav payload mime; Ok (acc ++ wav)).
Proof.
  intros Hp Hm. destruct payload as [|x payload]; [done|].
  unfold process_chunk, chunk_with_parts, audio_part. cbn -[convert_to_wav].
  by rewrite Hm.
Qed.

Lemma process_chunk_native acc payload mime ext rest others :
  payload <> [] -> guess_extension mime = Some ext ->
  process_chunk guess_extension acc
    (chunk_with_parts (audio_part payload mime :: rest) others)
  = Ok (acc ++ payload).
Proof.
  intros Hp Hm. destruct payload as [|x payload]; [done|].
  unfold process_chunk, chunk_with_parts, audio_part. cbn. by rewrite Hm.
Qed.

(** An empty list of candidates or of parts is not skipped: indexing it
    raises. *)
Lemma process_chunk_empty_lists acc :
  process_chunk guess_extension acc {| candidates := Some [] |}
  = Raise IndexError
  /\ process_chunk guess_extension acc (chunk_with_parts [] [])
     = Raise IndexError.
Proof. by split. Qed.

Lemma assemble_stream_of acc chunks last :
  assemble guess_extension acc (stream_of chunks last) =
  (acc' ← for_each (process_chunk guess_extension) acc chunks;
   assemble guess_extension acc' last).
Proof.
  revert acc. induction chunks as [|c cs IH]; intros acc; [reflexivity|].
  cbn [stream_of assemble for_each].
  destruct (process_chunk guess_extension acc c) as [acc'|e];
    [|reflexivity].
  apply IH.
Qed.

End AssemblerFacts.

Lemma wav_header_split bits rate size :
  wav_header bits rate size
  = wav_header_prefix bits rate size ++ le_split 4 size.
Proof. unfold wav_header, wav_header_prefix. by rewrite <- !app_assoc. Qed.

Lemma length_wav_header_prefix bits rate size :
  length (wav_header_prefix bits rate size) = 40%nat.
Proof.
  unfold wav_header_prefix. rewrite !length_app, !length_le_split. reflexivity.
Qed.

(** The data size of a container reads back wherever the container lies in
    a byte sequence. *)
Lemma le_field_data_size pre bits rate payload post :
  fits 4 (Z.of_nat (length payload)) = true ->
  le_field (length pre + 40) 4
    (pre ++ (wav_header bits rate (Z.of_nat (length payload)) ++ payload)
         ++ post)
  = Z.of_nat (length payload).
Proof.
  intros Hfits. rewrite wav_header_split, <- !app_assoc.
  rewrite (app_assoc pre).
  rewrite <- (length_wav_header_prefix bits rate (Z.of_nat (length payload))).
  rewrite <- length_app. by apply le_field_at.
Qed.

Lemma header_fits_data_size bits rate size :
  header_fits bits rate size = true -> fits 4 size = true.
Proof. unfold header_fits. rewrite !andb_true_iff. tauto. Qed.

(** C1: for two chunks that carry the payloads [P1] and [P2] under media
    types without a file extension, the accumulated output is
    [encode(P1, params1)] followed by [encode(P2, params2)], where
    [params1] and [params2] are parsed from the chunks' own descriptors.
    When the loop completes, each payload is preceded by a 44-byte header of
    its own whose data size is the length of that payload, and the output is
    not the encoding of the two payloads under one header. *)
Theorem two_raw_chunks_two_headers
    (guess_extension : string -> option string)
    (P1 P2 : list byte) (m1 m2 : string)
    (rest1 rest2 : list Part) (others1 others2 : list Candidate) :
  P1 <> [] -> P2 <> [] ->
  guess_extension m1 = None -> guess_extension m2 = None ->
  let chunks := [ chunk_with_parts (audio_part P1 m1 :: rest1) others1;
                  chunk_with_parts (audio_part P2 m2 :: rest2) others2 ] in
  exists params1 params2,
    parse_audio_mime_type m1 = Ok params1
    /\ parse_audio_mime_type m2 = Ok params2
    /\ assemble guess_extension [] (stream_of chunks Stop)
       = (wav1 ← encode P1 params1; wav2 ← encode P2 params2;
          Ok (wav1 ++ wav2))
    /\ forall out,
         assemble guess_extension [] (stream_of chunks Stop) = Ok out ->
         length out = (88 + length P1 + length P2)%nat
         /\ le_field 40 4 out = Z.of_nat (length P1)
         /\ le_field (44 + length P1 + 40) 4 out = Z.of_nat (length P2)
         /\ forall parameters, encode (P1 ++ P2) parameters <> Ok out.
Proof.
  intros HP1 HP2 Hm1 Hm2 chunks.
  destruct (convert_to_wav_eq P1 m1) as (b1 & r1 & Hparse1 & Hconv1).
  destruct (convert_to_wav_eq P2 m2) as (b2 & r2 & Hparse2 & Hconv2).
  exists (params b1 r1), (params b2 r2).
  assert (assemble guess_extension [] (stream_of chunks Stop)
          = (wav1 ← encode P1 (params b1 r1);
             wav2 ← encode P2 (params b2 r2); Ok (wav1 ++ wav2))) as Heq.
  { subst chunks. cbn [stream_of assemble].
    rewrite process_chunk_raw, Hconv1 by done.
    destruct (encode P1 (params b1 r1)) as [wav1|]; [|reflexivity].
    cbn [mbind result_bind bind app].
    rewrite process_chunk_raw, Hconv2 by done.
    by destruct (encode P2 (params b2 r2)). }
  split; [exact Hparse1|]. split; [exact Hparse2|]. split; [exact Heq|].
  intros out. rewrite Heq, !encode_params.
  destruct (header_fits b1 r1 _) eqn:Hfits1; [|done].
  destruct (header_fits b2 r2 _) eqn:Hfits2; [|done].
  cbn [mbind result_bind bind]. intros <-%Ok_inj.
  apply header_fits_data_size in Hfits1, Hfits2.
  assert (length ((wav_header b1 r1 (Z.of_nat (length P1)) ++ P1)
                  ++ wav_header b2 r2 (Z.of_nat (length P2)) ++ P2)
          = (88 + length P1 + length P2)%nat) as Hlen
    by (rewrite !length_app, !length_wav_header; lia).
  split; [exact Hlen|]. split; [|split].
  - rewrite <- (app_nil_l (_ ++ _)), app_assoc.
    apply (le_field_data_size [] b1 r1 P1); exact Hfits1.
  - rewrite <- (app_nil_r (_ ++ _ ++ P2)).
    replace (44 + length P1 + 40)%nat
      with (length (wav_header b1 r1 (Z.of_nat (length P1)) ++ P1) + 40)%nat
      by (rewrite length_app, length_wav_header; lia).
    rewrite <- app_assoc.
    apply (le_field_data_size _ b2 r2 P2 []); exact Hfits2.
  - intros parameters Hone%encode_length.
    rewrite Hlen, length_app in Hone. lia.
Qed.

Lemma two_raw_chunks_two_headers_witness :
  exists out,
    assemble sample_guess_extension []
      (stream_of
         [ chunk_with_parts [audio_part [x01; x02] "audio/L16;rate=24000"] [];
           chunk_with_parts [audio_part [x03] "audio/L24;rate=48000"] [] ]
         Stop)
    = Ok out
    /\ length out = 91%nat /\ le_field 40 4 out = 2 /\ le_field 86 4 out = 1.
Proof.
  destruct (two_raw_chunks_two_headers sample_guess_extension
              [x01; x02] [x03] "audio/L16;rate=24000" "audio/L24;rate=48000"
              [] [] [] [])
    as (params1 & params2 & _ & _ & Heq & Hout);
    [discriminate | discriminate | reflexivity | reflexivity |].
  eexists. split; [by vm_compute|].
  destruct (Hout _ ltac:(by vm_compute)) as (Hlen & H1 & H2 & _).
  exact (conj Hlen (conj H1 H2)).
Defined.

(** C8, as stated, fails: a chunk whose list of parts, or of candidates, is
    empty carries no audio payload, yet it is not skipped: indexing the list
    raises [IndexError], and the raw chunk after it is never reached. *)
Lemma empty_chunk_is_not_skipped :
  let raw :=
    chunk_with_parts [audio_part [x2a; x00] "audio/L16;rate=24000"] [] in
  assemble sample_guess_extension []
    (stream_of [chunk_with_parts [] []; raw] Stop)
  = Raise IndexError
  /\ assemble sample_guess_extension []
       (stream_of [ {| candidates := Some [] |}; raw ] Stop)
     = Raise IndexError
  /\ encode [x2a; x00] (params 16 24000)
     = Ok (wav_header 16 24000 2 ++ [x2a; x00]).
Proof.
  intros raw. split; [reflexivity|]. split; [reflexivity|].
  rewrite encode_params. reflexivity.
Qed.

(** C8, amended: a chunk that the guards of the loop recognise as carrying
    no audio, followed by a chunk that carries the payload [P] under the
    descriptor [audio/L16;rate=24000] (a media type without a file
    extension): the first chunk leaves the accumulator as it is and raises
    nothing, and the accumulated output is [encode(P, {16, 24000})].  Over
    the empty sequence the output is empty. *)
Theorem skippable_then_raw_chunk
    (guess_extension : string -> option string)
    (skipped : Chunk) (P : list byte)
    (rest : list Part) (others : list Candidate) :
  skippable skipped -> P <> [] ->
  guess_extension "audio/L16;rate=24000" = None ->
  let raw :=
    chunk_with_parts (audio_part P "audio/L16;rate=24000" :: rest) others in
  process_chunk guess_extension [] skipped = Ok []
  /\ assemble guess_extension [] (stream_of [skipped; raw] Stop)
     = encode P (params 16 24000)
  /\ assemble guess_extension [] (stream_of [] Stop) = Ok [].
Proof.
  intros Hskip HP Hguess raw.
  split; [by apply process_chunk_skippable|]. split; [|reflexivity].
  cbn [stream_of assemble].
  rewrite process_chunk_skippable by done. cbn [mbind result_bind bind].
  subst raw. rewrite process_chunk_raw by done.
  unfold convert_to_wav.
  assert (parse_audio_mime_type "audio/L16;rate=24000" = Ok (params 16 24000))
    as -> by by apply parse_audio_mime_type_eq.
  cbn [mbind result_bind bind].
  by destruct (encode P (params 16 24000)).
Qed.

Lemma skippable_then_raw_chunk_witness :
  assemble sample_guess_extension []
    (stream_of
       [ chunk_with_parts
           [ {| inline_data :=
                  Some {| data := Some [];
                          mime_type := Some "audio/L16;rate=24000" |} |} ]
           [];
         chunk_with_parts [audio_part [x2a; x00] "audio/L16;rate=24000"] [] ]
       Stop)
  = encode [x2a; x00] (params 16 24000).
Proof.
  apply (skippable_then_raw_chunk sample_guess_extension _ [x2a; x00] [] []).
  - apply skip_part. right. eexists. split; [reflexivity|]. by right.
  - discriminate.
  - reflexivity.
Defined.

(** What the function does with the loop's outcome. *)
Lemma generate_podcast_audio_eq guess_extension key temp_name stream fs :
  key <> "" ->
  generate_podcast_audio guess_extension (Some key) temp_name stream fs
  = match assemble guess_extension [] stream with
    | Ok audio_data => (Ok temp_name, <[ temp_name := audio_data ]> fs)
    | Raise e => (Raise e, delete temp_name fs)
    end.
Proof.
  intros Hkey. unfold generate_podcast_audio.
  destruct key as [|c key]; [done|].
  destruct (assemble guess_extension [] stream) as [audio_data|e].
  - by rewrite insert_insert_eq.
  - rewrite decide_True by (rewrite lookup_insert_eq; eauto).
    by rewrite delete_insert_eq.
Qed.

(** C9: when the stream raises after any number of chunks, the call returns
    no path but raises, and the temporary file is gone while every other
    file is as before; when the chunks before the failure were processed
    without error, the exception raised is the one of the stream. *)
Theorem upstream_failure_cleans_up
    (guess_extension : string -> option string)
    (key temp_name : string) (chunks : list Chunk) (e : exn)
    (fs : gmap string (list byte)) :
  key <> "" ->
  exists raised,
    generate_podcast_audio guess_extension (Some key) temp_name
      (stream_of chunks (Fail e)) fs
    = (Raise raised, delete temp_name fs)
    /\ delete temp_name fs !! temp_name = None
    /\ (forall path, path <> temp_name ->
                     delete temp_name fs !! path = fs !! path)
    /\ (is_ok (assemble guess_extension [] (stream_of chunks Stop)) = true ->
        raised = e).
Proof.
  intros Hkey. rewrite generate_podcast_audio_eq by done.
  rewrite !assemble_stream_of.
  destruct (for_each (process_chunk guess_extension) [] chunks)
    as [acc|e'].
  - exists e. cbn. split; [reflexivity|]. split; [apply lookup_delete_eq|].
    split; [|done]. intros path Hpath. by apply lookup_delete_ne.
  - exists e'. cbn. split; [reflexivity|]. split; [apply lookup_delete_eq|].
    split; [|done]. intros path Hpath. by apply lookup_delete_ne.
Qed.

Lemma upstream_failure_cleans_up_witness :
  exists raised,
    generate_podcast_audio sample_guess_extension (Some "k") "/tmp/a.wav"
      (stream_of [chunk_with_parts [audio_part [x01] "audio/L16"] []]
         (Fail (UpstreamError "reset")))
      ({[ "/tmp/b.wav" := [x00] ]} : gmap string (list byte))
    = (Raise raised, delete "/tmp/a.wav" {[ "/tmp/b.wav" := [x00] ]})
    /\ raised = UpstreamError "reset".
Proof.
  destruct (upstream_failure_cleans_up sample_guess_extension "k" "/tmp/a.wav"
              [chunk_with_parts [audio_part [x01] "audio/L16"] []]
              (UpstreamError "reset") {[ "/tmp/b.wav" := [x00] ]})
    as (raised & Hrun & _ & _ & Hsame); [discriminate|].
  exists raised. split; [exact Hrun|]. apply Hsame. by vm_compute.
Defined.

(** C10: only the first part of a chunk is inspected.  The parts after the
    first never change what the chunk contributes, and a chunk whose first
    part carries no inline audio data contributes nothing, whatever the
    later parts carry. *)
Theorem only_first_part_is_read
    (guess_extension : string -> option string)
    (audio_data : list byte) (first : Part) (later : list Part)
    (others : list Candidate) :
  process_chunk guess_extension audio_data
    (chunk_with_parts (first :: later) others)
  = process_chunk guess_extension audio_data (chunk_with_parts [first] [])
  /\ (no_audio first ->
      process_chunk guess_extension audio_data
        (chunk_with_parts (first :: later) others)
      = Ok audio_data).
Proof. split; [reflexivity|]. apply process_chunk_no_audio. Qed.

Lemma only_first_part_is_read_witness :
  process_chunk sample_guess_extension [x07]
    (chunk_with_parts
       [ {| inline_data := None |}; audio_part [x01; x02] "audio/x-wav" ] [])
  = Ok [x07].
Proof.
  apply (only_first_part_is_read sample_guess_extension [x07]
           {| inline_data := None |}
           [audio_part [x01; x02] "audio/x-wav"] []).
  by left.
Defined.

(** ** The parser: whitespace, letter case and the order of tokens *)

Lemma isspace_rstrip w : all_chars isspace w = true -> rstrip w = "".
Proof.
  induction w as [|c w IH]; [reflexivity|]. cbn.
  intros [Hc Hw]%andb_true_iff. by rewrite (IH Hw), Hc.
Qed.

Lemma lstrip_app_space w s :
  all_chars isspace w = true -> lstrip (w +:+ s) = lstrip s.
Proof.
  induction w as [|c w IH]; [reflexivity|]. rewrite append_cons. cbn.
  intros [Hc Hw]%andb_true_iff. by rewrite Hc, (IH Hw).
Qed.

Lemma rstrip_app_space s w :
  all_chars isspace w = true -> rstrip (s +:+ w) = rstrip s.
Proof.
  intros Hw. induction s as [|c s IH]; [by apply isspace_rstrip|].
  rewrite append_cons. cbn [rstrip]. by rewrite IH.
Qed.

Lemma strip_app_space s w :
  all_chars isspace w = true -> strip (s +:+ w) = strip s.
Proof.
  intros Hw. unfold strip. induction s as [|c s IH].
  - rewrite append_empty_l. assert (lstrip w = "") as ->; [|reflexivity].
    clear -Hw. induction w as [|c w IH]; [reflexivity|]. cbn in *.
    apply andb_true_iff in Hw as [-> Hw]. by apply IH.
  - rewrite append_cons. cbn [lstrip]. destruct (isspace c); [exact IH|].
    rewrite <- append_cons. by apply rstrip_app_space.
Qed.

Lemma strip_padded w1 s w2 :
  all_chars isspace w1 = true -> all_chars isspace w2 = true ->
  strip (w1 +:+ s +:+ w2) = strip s.
Proof.
  intros H1 H2. rewrite <- (strip_app_space s w2 H2).
  unfold strip. by rewrite lstrip_app_space.
Qed.

(** X1: whitespace around a token of the descriptor is ignored: padded on
    either side with characters that [str.isspace] accepts, a token changes
    the parameters read so far exactly as the bare token does. *)
Theorem token_whitespace_is_ignored (st : Z * Z) (w1 param w2 : string) :
  all_chars isspace w1 = true -> all_chars isspace w2 = true ->
  parse_param st (w1 +:+ param +:+ w2) = parse_param st param.
Proof.
  intros H1 H2. unfold parse_param. by rewrite strip_padded.
Qed.

Lemma token_whitespace_is_ignored_witness :
  parse_param (16, 24000) "  rate=8000 " = parse_param (16, 24000) "rate=8000".
Proof.
  apply (token_whitespace_is_ignored (16, 24000) "  " "rate=8000" " ");
    reflexivity.
Defined.

Lemma split_nonempty sep s : split sep s <> [].
Proof.
  destruct s as [|c s]; [done|]. cbn.
  destruct (Ascii.eqb c sep); [done|]. by destruct (split sep s).
Qed.

(** Splitting distributes over a separator. *)
Lemma split_app sep s t :
  split sep (s +:+ String sep t) = split sep s ++ split sep t.
Proof.
  induction s as [|c s IH]; rewrite ?append_cons, ?append_empty_l; cbn.
  - by rewrite Ascii.eqb_refl.
  - rewrite IH. destruct (Ascii.eqb c sep); [done|].
    pose proof (split_nonempty sep s). by destruct (split sep s).
Qed.

Lemma last_set_app d l1 l2 :
  last_set d (l1 ++ l2) = last_set (last_set d l1) l2.
Proof. unfold last_set. apply fold_left_app. Qed.

Lemma token_values_padded w1 param w2 :
  all_chars isspace w1 = true -> all_chars isspace w2 = true ->
  bits_of_param (w1 +:+ param +:+ w2) = bits_of_param param
  /\ rate_of_param (w1 +:+ param +:+ w2) = rate_of_param param.
Proof.
  intros H1 H2. unfold bits_of_param, rate_of_param.
  by rewrite strip_padded.
Qed.

(** A token without effect: the loop body returns the state as it is. *)
Lemma token_without_effect param :
  (forall st, parse_param st param = Ok st) ->
  bits_of_param param = None /\ rate_of_param param = None.
Proof.
  intros H. pose proof (H (0, 0)) as H0. pose proof (H (1, 1)) as H1.
  rewrite parse_param_eq in H0, H1.
  apply Ok_inj in H0, H1.
  destruct (bits_of_param param), (rate_of_param param); cbn in *;
    first [done | congruence].
Qed.

Lemma neither_prefix_without_effect param st :
  startswith (lower (strip param)) "rate=" = false ->
  startswith (strip param) "audio/L" = false ->
  parse_param st param = Ok st.
Proof.
  intros H1 H2. destruct st as [bits rate]. rewrite parse_param_eq.
  unfold bits_of_param, rate_of_param. by rewrite H1, H2.
Qed.

Lemma append_char c s : String c "" +:+ s = String c s.
Proof. reflexivity. Qed.

(** X2: a token that changes nothing, whatever has been read so far, can be
    dropped from the descriptor, in the middle, at the front or at the end,
    together with its separator: the parameters are the same. *)
Theorem tokens_without_effect_are_ignored (s1 param s2 : string) :
  occurs ";" param = false ->
  (forall st, parse_param st param = Ok st) ->
  parse_audio_mime_type (s1 +:+ ";" +:+ param +:+ ";" +:+ s2)
  = parse_audio_mime_type (s1 +:+ ";" +:+ s2)
  /\ parse_audio_mime_type (param +:+ ";" +:+ s2) = parse_audio_mime_type s2
  /\ parse_audio_mime_type (s1 +:+ ";" +:+ param) = parse_audio_mime_type s1.
Proof.
  intros Hsep [Hb Hr]%token_without_effect.
  rewrite !parse_audio_mime_type_last, !append_char.
  rewrite !split_app, !fmap_app, !last_set_app, (split_absent _ _ Hsep).
  cbn [fmap list_fmap]. by rewrite Hb, Hr.
Qed.

Lemma tokens_without_effect_are_ignored_witness :
  parse_audio_mime_type "audio/L24;codec=pcm;rate=8000"
  = parse_audio_mime_type "audio/L24;rate=8000".
Proof.
  apply (tokens_without_effect_are_ignored "audio/L24" "codec=pcm" "rate=8000");
    [reflexivity|].
  intros st. by apply neither_prefix_without_effect.
Defined.

(** X3: a later token overrides an earlier one of the same kind and leaves
    the other parameter alone: appending [;rate=] and a literal that [int]
    accepts replaces the rate, appending [;audio/L] and such a literal
    replaces the bits per sample. *)
Theorem appended_token_overrides (s sr sn : string) (bits rate r n : Z) :
  parse_audio_mime_type s = Ok (params bits rate) ->
  int sr = Ok r -> int sn = Ok n ->
  parse_audio_mime_type (s +:+ ";rate=" +:+ sr) = Ok (params bits r)
  /\ parse_audio_mime_type (s +:+ ";audio/L" +:+ sn) = Ok (params n rate).
Proof.
  rewrite !parse_audio_mime_type_last. intros Hs Hr Hn.
  apply Ok_inj, params_inj in Hs as [Hbits Hrate].
  change (";rate=" +:+ sr) with (String ";" ("rate=" +:+ sr)).
  change (";audio/L" +:+ sn) with (String ";" ("audio/L" +:+ sn)).
  rewrite !split_app, !fmap_app, !last_set_app, Hbits, Hrate.
  rewrite (split_absent _ ("rate=" +:+ sr))
    by (rewrite occurs_append, (int_no_separator _ _ ";" Hr); reflexivity).
  rewrite (split_absent _ ("audio/L" +:+ sn))
    by (rewrite occurs_append, (int_no_separator _ _ ";" Hn); reflexivity).
  cbn [fmap list_fmap].
  rewrite bits_of_rate_token, rate_of_rate_token.
  rewrite bits_of_audio_token, rate_of_audio_token.
  by rewrite (int_rstrip _ _ Hr), (int_rstrip _ _ Hn).
Qed.

Lemma appended_token_overrides_witness :
  parse_audio_mime_type "audio/L16;rate=24000;rate=8000" = Ok (params 16 8000)
  /\ parse_audio_mime_type "audio/L16;rate=24000;audio/L24"
     = Ok (params 24 24000).
Proof.
  apply (appended_token_overrides "audio/L16;rate=24000" "8000" "24"
           16 24000 8000 24);
    [by apply parse_audio_mime_type_eq | reflexivity | reflexivity].
Defined.

(** X4: the two tokens may come in the other order: the rate token followed
    by the [audio/L] token gives the same parameters. *)
Theorem rate_token_may_come_first (sn sr : string) (n r : Z) :
  int sn = Ok n -> int sr = Ok r ->
  parse_audio_mime_type ("rate=" +:+ sr +:+ ";audio/L" +:+ sn)
  = Ok (params n r).
Proof.
  intros Hn Hr. rewrite parse_audio_mime_type_last.
  rewrite <- append_assoc.
  change (";audio/L" +:+ sn) with (String ";" ("audio/L" +:+ sn)).
  rewrite split_two_tokens.
  - cbn [fmap list_fmap].
    rewrite bits_of_audio_token, rate_of_audio_token.
    rewrite bits_of_rate_token, rate_of_rate_token.
    by rewrite (int_rstrip _ _ Hn), (int_rstrip _ _ Hr).
  - rewrite occurs_append, (int_no_separator _ _ ";" Hr); reflexivity.
  - rewrite occurs_append, (int_no_separator _ _ ";" Hn); reflexivity.
Qed.

Lemma rate_token_may_come_first_witness :
  parse_audio_mime_type "rate=48000;audio/L24" = Ok (params 24 48000).
Proof.
  exact (rate_token_may_come_first "24" "48000" 24 48000 eq_refl eq_refl).
Defined.

(** *** Letter case of the two prefixes *)

Lemma lower_char_inv c x :
  lower_char c = x ->
  (x = "r" -> c = "r" \/ c = "R")%char /\ (x = "a" -> c = "a" \/ c = "A")%char
  /\ (x = "t" -> c = "t" \/ c = "T")%char /\ (x = "e" -> c = "e" \/ c = "E")%char
  /\ (x = "u" -> c = "u" \/ c = "U")%char /\ (x = "d" -> c = "d" \/ c = "D")%char
  /\ (x = "i" -> c = "i" \/ c = "I")%char /\ (x = "o" -> c = "o" \/ c = "O")%char
  /\ (x = "l" -> c = "l" \/ c = "L")%char
  /\ (x = "=" -> c = "=")%char /\ (x = "/" -> c = "/")%char.
Proof.
  intros <-.
  destruct c as [[] [] [] [] [] [] [] []]; vm_compute;
    repeat split; intros H; first [discriminate H | by left | by right | done].
Qed.

Lemma rate_prefix_any_case p :
  lower p = "rate=" ->
  exists c1 c2 c3 c4,
    p = String c1 (String c2 (String c3 (String c4 "=")))
    /\ (c1 = "r" \/ c1 = "R")%char /\ (c2 = "a" \/ c2 = "A")%char
    /\ (c3 = "t" \/ c3 = "T")%char /\ (c4 = "e" \/ c4 = "E")%char.
Proof.
  destruct p as [|c1 [|c2 [|c3 [|c4 [|c5 [|c6 p]]]]]]; try discriminate.
  cbn [lower]. intros [= H1 H2 H3 H4 H5].
  exists c1, c2, c3, c4.
  apply lower_char_inv in H1 as (H1 & _).
  apply lower_char_inv in H2 as (_ & H2 & _).
  apply lower_char_inv in H3 as (_ & _ & H3 & _).
  apply lower_char_inv in H4 as (_ & _ & _ & H4 & _).
  apply lower_char_inv in H5 as (_ & _ & _ & _ & _ & _ & _ & _ & _ & H5 & _).
  rewrite (H5 eq_refl). split; [reflexivity|].
  repeat split; [apply H1 | apply H2 | apply H3 | apply H4]; reflexivity.
Qed.

(** X5: the prefix of the rate token is matched without regard to letter
    case: a token whose first five characters are [rate=] in any mix of
    cases is read as the token with the prefix in lower case. *)
Theorem rate_prefix_is_case_insensitive (st : Z * Z) (p v : string) :
  lower p = "rate=" ->
  parse_param st (p +:+ v) = parse_param st ("rate=" +:+ v).
Proof.
  intros (c1 & c2 & c3 & c4 & -> & H1 & H2 & H3 & H4)%rate_prefix_any_case.
  destruct st as [bits rate]. rewrite !parse_param_eq.
  unfold bits_of_param, rate_of_param. rewrite strip_rate.
  assert (strip (String c1 (String c2 (String c3 (String c4 "="))) +:+ v)
          = String c1 (String c2 (String c3 (String c4 "="))) +:+ rstrip v)
    as ->.
  { unfold strip. rewrite !append_cons, append_empty_l.
    destruct H1 as [-> | ->], H2 as [-> | ->], H3 as [-> | ->],
      H4 as [-> | ->]; cbn [lstrip];
      match goal with
      | |- context [isspace ?c] => change (isspace c) with false
      end;
      cbn iota; by rewrite !rstrip_cons by reflexivity. }
  destruct H1 as [-> | ->], H2 as [-> | ->], H3 as [-> | ->],
    H4 as [-> | ->]; reflexivity.
Qed.

Lemma audio_prefix_any_case p :
  lower p = "audio/l" ->
  exists c1 c2 c3 c4 c5 c7,
    p = String c1 (String c2 (String c3 (String c4 (String c5
          (String "/" (String c7 ""))))))
    /\ (c1 = "a" \/ c1 = "A")%char /\ (c2 = "u" \/ c2 = "U")%char
    /\ (c3 = "d" \/ c3 = "D")%char /\ (c4 = "i" \/ c4 = "I")%char
    /\ (c5 = "o" \/ c5 = "O")%char /\ (c7 = "l" \/ c7 = "L")%char.
Proof.
  destruct p as [|c1 [|c2 [|c3 [|c4 [|c5 [|c6 [|c7 [|c8 p]]]]]]]];
    try discriminate.
  cbn [lower]. intros [= H1 H2 H3 H4 H5 H6 H7].
  exists c1, c2, c3, c4, c5, c7.
  apply lower_char_inv in H1 as (_ & H1 & _).
  apply lower_char_inv in H2 as (_ & _ & _ & _ & H2 & _).
  apply lower_char_inv in H3 as (_ & _ & _ & _ & _ & H3 & _).
  apply lower_char_inv in H4 as (_ & _ & _ & _ & _ & _ & H4 & _).
  apply lower_char_inv in H5 as (_ & _ & _ & _ & _ & _ & _ & H5 & _).
  apply lower_char_inv in H6 as (_ & _ & _ & _ & _ & _ & _ & _ & _ & _ & H6).
  apply lower_char_inv in H7 as (_ & _ & _ & _ & _ & _ & _ & _ & H7 & _).
  rewrite (H6 eq_refl). split; [reflexivity|].
  repeat split;
    [apply H1 | apply H2 | apply H3 | apply H4 | apply H5 | apply H7];
    reflexivity.
Qed.

(** X6: the prefix [audio/L] is matched exactly: a token that begins with
    [audio/l] in any other mix of cases changes nothing. *)
Theorem audio_prefix_is_case_sensitive (st : Z * Z) (p v : string) :
  lower p = "audio/l" -> p <> "audio/L" ->
  parse_param st (p +:+ v) = Ok st.
Proof.
  intros (c1 & c2 & c3 & c4 & c5 & c7 & -> & H1 & H2 & H3 & H4 & H5 & H7)
    %audio_prefix_any_case Hne.
  assert (forall q, strip (String c1 q) = String c1 (rstrip q)) as Hstrip.
  { intros q. unfold strip. cbn [lstrip].
    destruct H1 as [-> | ->];
      match goal with
      | |- context [isspace ?c] => change (isspace c) with false
      end;
      cbn iota; by rewrite rstrip_cons by reflexivity. }
  apply neither_prefix_without_effect;
    rewrite !append_cons, Hstrip;
    destruct H1 as [-> | ->], H2 as [-> | ->], H3 as [-> | ->],
      H4 as [-> | ->], H5 as [-> | ->], H7 as [-> | ->];
    first [ done | reflexivity
          | rewrite !rstrip_cons by reflexivity; reflexivity ].
Qed.

Lemma rate_prefix_is_case_insensitive_witness :
  parse_param (16, 24000) "RaTe=8000" = parse_param (16, 24000) "rate=8000".
Proof.
  apply (rate_prefix_is_case_insensitive (16, 24000) "RaTe=" "8000").
  reflexivity.
Defined.

Lemma audio_prefix_is_case_sensitive_witness :
  parse_param (16, 24000) "audio/l24" = Ok (16, 24000).
Proof.
  apply (audio_prefix_is_case_sensitive (16, 24000) "audio/l" "24");
    [reflexivity | discriminate].
Defined.

(** ** The encoder: every field of the header reads back *)

Lemma slice_at pre mid post :
  slice (length pre) (length mid) (pre ++ mid ++ post) = mid.
Proof. unfold slice. by rewrite drop_app_length, take_app_length. Qed.

Lemma le_field_slice off n bs : le_field off n bs = le_combine (slice off n bs).
Proof. reflexivity. Qed.

Lemma wav_pieces_concat bits rate payload :
  wav_header bits rate (Z.of_nat (length payload)) ++ payload
  = concat (wav_pieces bits rate payload).
Proof.
  unfold wav_header, wav_pieces. cbn [concat].
  by rewrite app_nil_r, <- !app_assoc.
Qed.

(** The piece at position [i] lies at the offset that the pieces before it
    add up to. *)
Lemma slice_piece (pieces : list (list byte)) (i off n : nat)
    (piece : list byte) :
  pieces !! i = Some piece ->
  off = length (concat (take i pieces)) -> n = length piece ->
  slice off n (concat pieces) = piece.
Proof.
  intros H -> ->. rewrite <- (take_drop_middle pieces i piece H) at 2.
  rewrite concat_app. cbn [concat]. apply slice_at.
Qed.

Lemma le_field_piece pieces i off n v :
  pieces !! i = Some (le_split n v) -> fits n v = true ->
  off = length (concat (take i pieces)) ->
  le_field off n (concat pieces) = v.
Proof.
  intros H Hv Hoff. rewrite le_field_slice.
  rewrite (slice_piece _ i off n _ H Hoff)
    by (symmetry; apply length_le_split).
  by apply le_combine_split_fits.
Qed.

Lemma header_fits_all bits rate size :
  header_fits bits rate size = true ->
  fits 4 (36 + size) = true /\ fits 4 rate = true
  /\ fits 4 (rate * (1 * (bits / 8))) = true
  /\ fits 2 (1 * (bits / 8)) = true /\ fits 2 bits = true
  /\ fits 4 size = true.
Proof. unfold header_fits. rewrite !andb_true_iff. tauto. Qed.

Ltac field_piece i :=
  eapply (le_field_piece _ i);
  [ reflexivity
  | assumption
  | cbn [firstn concat wav_pieces];
    rewrite ?length_app, ?length_le_split; reflexivity ].

Lemma encode_rate_bits_payload
    (payload : list byte) (bits rate : Z) (out : list byte) :
  encode payload (params bits rate) = Ok out ->
  le_field 24 4 out = rate /\ le_field 34 2 out = bits
  /\ skipn 44 out = payload.
Proof.
  rewrite encode_params.
  destruct (header_fits _ _ _) eqn:Hfits; [|done]. intros <-%Ok_inj.
  apply header_fits_all in Hfits as (H1 & H2 & H3 & H4 & H5 & H6).
  assert (skipn 44 (wav_header bits rate (Z.of_nat (length payload)) ++ payload)
          = payload) as Hpayload.
  { rewrite <- (length_wav_header bits rate (Z.of_nat (length payload))) at 1.
    apply drop_app_length. }
  rewrite wav_pieces_concat in *.
  repeat split; try exact Hpayload.
  - field_piece 7%nat.
  - field_piece 10%nat.
Qed.

(** X7: what [encode] returns reads back field by field: the four tags at
    their offsets, the little-endian integers of the format string with the
    values computed from the parameters and the length of the payload, and
    after the 44 bytes of the header the payload itself. *)
Theorem encode_header_reads_back
    (payload : list byte) (bits rate : Z) (out : list byte) :
  encode payload (params bits rate) = Ok out ->
  slice 0 4 out = b "RIFF"
  /\ le_field 4 4 out = 36 + Z.of_nat (length payload)
  /\ slice 8 4 out = b "WAVE" /\ slice 12 4 out = b "fmt "
  /\ le_field 16 4 out = 16 /\ le_field 20 2 out = 1
  /\ le_field 22 2 out = 1
  /\ le_field 24 4 out = rate
  /\ le_field 28 4 out = rate * (bits / 8)
  /\ le_field 32 2 out = bits / 8
  /\ le_field 34 2 out = bits
  /\ slice 36 4 out = b "data"
  /\ le_field 40 4 out = Z.of_nat (length payload)
  /\ skipn 44 out = payload.
Proof.
  rewrite encode_params.
  destruct (header_fits _ _ _) eqn:Hfits; [|done]. intros <-%Ok_inj.
  apply header_fits_all in Hfits as (H1 & H2 & H3 & H4 & H5 & H6).
  assert (skipn 44 (wav_header bits rate (Z.of_nat (length payload)) ++ payload)
          = payload) as Hpayload.
  { rewrite <- (length_wav_header bits rate (Z.of_nat (length payload))) at 1.
    apply drop_app_length. }
  rewrite <- (Z.mul_1_l (bits / 8)).
  rewrite wav_pieces_concat in *.
  repeat split; try exact Hpayload.
  - field_piece 1%nat.
  - field_piece 7%nat.
  - field_piece 8%nat.
  - field_piece 9%nat.
  - field_piece 10%nat.
  - field_piece 12%nat.
Qed.

Lemma encode_header_reads_back_witness :
  let out := wav_header 24 48000 3 ++ [x01; x02; x03] in
  le_field 24 4 out = 48000 /\ le_field 28 4 out = 144000
  /\ le_field 34 2 out = 24 /\ skipn 44 out = [x01; x02; x03].
Proof.
  intros out.
  pose proof (encode_header_reads_back [x01; x02; x03] 24 48000 out) as F.
  destruct F as (_ & _ & _ & _ & _ & _ & _ & F1 & F2 & _ & F3 & _ & _ & F4).
  - rewrite encode_params. reflexivity.
  - exact (conj F1 (conj F2 (conj F3 F4))).
Defined.

(** X8: [encode] is injective: two calls that return the same bytes had
    the same payload, the same bits per sample and the same rate. *)
Theorem encode_is_injective
    (payload payload' : list byte) (bits rate bits' rate' : Z)
    (out : list byte) :
  encode payload (params bits rate) = Ok out ->
  encode payload' (params bits' rate') = Ok out ->
  payload = payload' /\ bits = bits' /\ rate = rate'.
Proof.
  intros H H'.
  apply encode_rate_bits_payload in H as (Hr & Hb & Hp).
  apply encode_rate_bits_payload in H' as (Hr' & Hb' & Hp').
  repeat split; congruence.
Qed.

Lemma encode_is_injective_witness :
  encode [x0a; x0b] (params 16 24000)
  = Ok (wav_header 16 24000 2 ++ [x0a; x0b])
  /\ ([x0a; x0b] = [x0a; x0b] /\ 16 = 16 /\ 24000 = 24000).
Proof.
  assert (encode [x0a; x0b] (params 16 24000)
          = Ok (wav_header 16 24000 2 ++ [x0a; x0b])) as H
    by (rewrite encode_params; reflexivity).
  split; [exact H|].
  exact (encode_is_injective [x0a; x0b] [x0a; x0b] 16 24000 16 24000
           (wav_header 16 24000 2 ++ [x0a; x0b]) H H).
Defined.

(** X9: with parameters that fit their slots, [encode] returns exactly
    when the payload is shorter than [2 ^ 32 - 36] bytes, and raises
    otherwise. *)
Theorem encode_payload_limit (payload : list byte) (bits rate : Z) :
  header_fits bits rate 0 = true ->
  is_ok (encode payload (params bits rate))
  = (Z.of_nat (length payload) <? 2 ^ 32 - 36).
Proof.
  intros H%header_fits_all. destruct H as (_ & H2 & H3 & H4 & H5 & _).
  rewrite encode_params. unfold header_fits. rewrite H2, H3, H4, H5.
  rewrite !andb_true_r.
  set (size := Z.of_nat (length payload)).
  assert (0 <= size) by (subst size; lia).
  change (2 ^ 32) with 4294967296.
  destruct (fits 4 (36 + size) && fits 4 size) eqn:E.
  - apply andb_true_iff in E as [E1 E2]. apply fits_range in E1, E2.
    change (2 ^ (8 * Z.of_nat 4)) with 4294967296 in *.
    cbn [is_ok]. symmetry. apply Z.ltb_lt. lia.
  - cbn [is_ok]. symmetry. apply Z.ltb_ge.
    apply andb_false_iff in E as [E | E];
      apply not_true_iff_false in E; rewrite fits_range in E;
      change (2 ^ (8 * Z.of_nat 4)) with 4294967296 in *; lia.
Qed.

Lemma encode_payload_limit_witness :
  is_ok (encode [x00; x00] (params 16 24000)) = true.
Proof.
  rewrite (encode_payload_limit [x00; x00] 16 24000); reflexivity.
Defined.

Lemma below_digit_limit z : Z.abs z < 2 ^ 32 -> Z.abs z < 10 ^ 4300.
Proof.
  intros H. eapply Z.lt_le_trans; [exact H|].
  etrans; [|apply (Z.pow_le_mono_r 10 10 4300); lia]. by vm_compute.
Qed.

(** X10: from the descriptor to the header and back: for bits per sample
    below [2 ^ 16], a rate below [2 ^ 32], a byte rate below [2 ^ 32] and a
    payload shorter than [2 ^ 32 - 36], [convert_to_wav] on the descriptor
    written with these two numbers in decimal returns bytes whose fields at
    offsets 34 and 24 are the two numbers and whose tail is the payload. *)
Theorem descriptor_reads_back (payload : list byte) (n r : Z) :
  0 <= n < 2 ^ 16 -> 0 <= r < 2 ^ 32 -> r * (n / 8) < 2 ^ 32 ->
  Z.of_nat (length payload) < 2 ^ 32 - 36 ->
  exists out,
    convert_to_wav payload ("audio/L" +:+ str n +:+ ";rate=" +:+ str r)
    = Ok out
    /\ le_field 34 2 out = n /\ le_field 24 4 out = r
    /\ skipn 44 out = payload.
Proof.
  intros Hn Hr Hrate Hlen.
  assert (header_fits n r (Z.of_nat (length payload)) = true) as Hfits.
  { unfold header_fits. rewrite !andb_true_iff, !fits_range, Z.mul_1_l.
    change (2 ^ (8 * Z.of_nat 4)) with (2 ^ 32).
    change (2 ^ (8 * Z.of_nat 2)) with (2 ^ 16).
    change (2 ^ 32) with 4294967296 in *. change (2 ^ 16) with 65536 in *.
    pose proof (Z.div_pos n 8). pose proof (Z.div_le_upper_bound n 8 n).
    repeat split; try lia; nia. }
  exists (wav_header n r (Z.of_nat (length payload)) ++ payload).
  assert (convert_to_wav payload ("audio/L" +:+ str n +:+ ";rate=" +:+ str r)
          = Ok (wav_header n r (Z.of_nat (length payload)) ++ payload)) as H.
  { unfold convert_to_wav. rewrite parse_decimal.
    - cbn [mbind result_bind bind]. by rewrite encode_params, Hfits.
    - apply below_digit_limit. lia.
    - apply below_digit_limit. lia. }
  split; [exact H|].
  assert (encode payload (params n r)
          = Ok (wav_header n r (Z.of_nat (length payload)) ++ payload)) as E
    by by rewrite encode_params, Hfits.
  apply encode_rate_bits_payload in E. tauto.
Qed.

Lemma descriptor_reads_back_witness :
  exists out,
    convert_to_wav [x01; x02] "audio/L16;rate=24000" = Ok out
    /\ le_field 34 2 out = 16 /\ le_field 24 4 out = 24000
    /\ skipn 44 out = [x01; x02].
Proof.
  apply (descriptor_reads_back [x01; x02] 16 24000); by vm_compute.
Defined.

(** ** The assembler: composition, pass-through and malformed chunks *)

Section AssemblerComposition.

Variable guess_extension : string -> option string.

(** The loop body only appends to the accumulator. *)
Lemma process_chunk_appends acc chunk :
  process_chunk guess_extension acc chunk
  = (bytes ← process_chunk guess_extension [] chunk; Ok (acc ++ bytes)).
Proof.
  unfold process_chunk.
  destruct chunk as [[[|[[[[[|[[[d m]|]] ps]|]]|]] cands]|]];
    cbn [candidates content parts inline_data data mime_type index
         mbind result_bind bind lookup list_lookup];
    rewrite ?app_nil_r; try reflexivity.
  destruct d as [[|x d]|]; cbn [mbind result_bind bind];
    rewrite ?app_nil_r; try reflexivity.
  destruct m as [m|]; [|reflexivity].
  destruct (guess_extension m); cbn [mbind result_bind bind app];
    [reflexivity|].
  by destruct (convert_to_wav (x :: d) m).
Qed.

Lemma assemble_appends acc stream :
  assemble guess_extension acc stream
  = (out ← assemble guess_extension [] stream; Ok (acc ++ out)).
Proof.
  revert acc. induction stream as [|chunk rest IH|e]; intros acc;
    cbn [assemble mbind result_bind bind].
  - by rewrite app_nil_r.
  - rewrite process_chunk_appends.
    destruct (process_chunk guess_extension [] chunk) as [bytes|];
      [|reflexivity].
    cbn [mbind result_bind bind app]. rewrite (IH (acc ++ bytes)), (IH bytes).
    destruct (assemble guess_extension [] rest); [|reflexivity].
    cbn [mbind result_bind bind]. by rewrite app_assoc.
  - reflexivity.
Qed.

Lemma assemble_app acc chunks1 chunks2 last :
  assemble guess_extension acc (stream_of (chunks1 ++ chunks2) last)
  = (mid ← assemble guess_extension acc (stream_of chunks1 Stop);
     assemble guess_extension mid (stream_of chunks2 last)).
Proof.
  revert acc. induction chunks1 as [|c cs IH]; intros acc; [reflexivity|].
  cbn [app stream_of assemble mbind result_bind bind].
  destruct (process_chunk guess_extension acc c); [|reflexivity].
  cbn [mbind result_bind bind]. apply IH.
Qed.

End AssemblerComposition.

(** X11: the loop is compositional: the output for a sequence of chunks
    followed by another is the output for the first followed by the output
    for the second, and an exception of either is the exception of the
    whole, the first one coming first. *)
Theorem assemble_concatenates
    (guess_extension : string -> option string) (chunks1 chunks2 : list Chunk) :
  assemble guess_extension [] (stream_of (chunks1 ++ chunks2) Stop)
  = (out1 ← assemble guess_extension [] (stream_of chunks1 Stop);
     out2 ← assemble guess_extension [] (stream_of chunks2 Stop);
     Ok (out1 ++ out2)).
Proof.
  rewrite assemble_app.
  destruct (assemble guess_extension [] (stream_of chunks1 Stop)) as [out1|];
    [|reflexivity].
  cbn [mbind result_bind bind]. apply assemble_appends.
Qed.

(** X12: chunks whose first part carries a non-empty payload under a type
    with a known extension are passed through: the output is the
    concatenation of the payloads, in order, with no header added. *)
Theorem native_chunks_pass_through
    (guess_extension : string -> option string)
    (items : list (list byte * string)) :
  Forall (fun item => item.1 <> [] /\ is_Some (guess_extension item.2)) items ->
  assemble guess_extension [] (stream_of (audio_chunk <$> items) Stop)
  = Ok (concat (fst <$> items)).
Proof.
  induction 1 as [|[payload mime] items [Hp [ext Hm]] _ IH]; [reflexivity|].
  change (audio_chunk <$> (payload, mime) :: items)
    with ([audio_chunk (payload, mime)] ++ (audio_chunk <$> items)).
  rewrite assemble_app. cbn [stream_of assemble].
  change (audio_chunk (payload, mime))
    with (chunk_with_parts [audio_part payload mime] []).
  cbn [fst snd] in *.
  rewrite (process_chunk_native _ _ _ _ ext) by done.
  cbn [mbind result_bind bind app]. by rewrite assemble_appends, IH.
Qed.

Lemma native_chunks_pass_through_witness :
  assemble sample_guess_extension []
    (stream_of
       (audio_chunk <$> [([x01; x02], "audio/mpeg"); ([x03], "audio/x-wav")])
       Stop)
  = Ok [x01; x02; x03].
Proof.
  apply (native_chunks_pass_through sample_guess_extension
           [([x01; x02], "audio/mpeg"); ([x03], "audio/x-wav")]).
  repeat constructor; by eauto.
Defined.

(** X13: a chunk that the guards of the loop skip can be removed from any
    place of the sequence: the result, output or exception, is the same. *)
Theorem skippable_chunks_are_neutral
    (guess_extension : string -> option string) (acc : list byte)
    (before after : list Chunk) (skipped : Chunk) (last : Stream) :
  skippable skipped ->
  assemble guess_extension acc (stream_of (before ++ skipped :: after) last)
  = assemble guess_extension acc (stream_of (before ++ after) last).
Proof.
  intros Hskip. rewrite !assemble_app.
  destruct (assemble guess_extension acc (stream_of before Stop)) as [mid|];
    [|reflexivity].
  cbn [mbind result_bind bind stream_of assemble].
  by rewrite process_chunk_skippable.
Qed.

Lemma skippable_chunks_are_neutral_witness :
  assemble sample_guess_extension []
    (stream_of
       ([audio_chunk ([x01], "audio/mpeg")]
          ++ {| candidates := None |} :: [audio_chunk ([x02], "audio/mpeg")])
       Stop)
  = assemble sample_guess_extension []
      (stream_of
         ([audio_chunk ([x01], "audio/mpeg")]
            ++ [audio_chunk ([x02], "audio/mpeg")])
         Stop).
Proof.
  apply (skippable_chunks_are_neutral sample_guess_extension []
           [audio_chunk ([x01], "audio/mpeg")]
           [audio_chunk ([x02], "audio/mpeg")] {| candidates := None |} Stop).
  apply skip_candidates.
Defined.

Lemma process_chunk_malformed guess_extension acc chunk e :
  malformed chunk e -> process_chunk guess_extension acc chunk = Raise e.
Proof.
  destruct 1 as [| |payload rest others Hp]; [reflexivity..|].
  by destruct payload.
Qed.

(** X14: a chunk with an empty list of candidates or of parts, or whose
    first part has a payload but no type, aborts the call: when the chunks
    before it were processed without error, the call raises [IndexError],
    respectively [AttributeError], whatever follows, and the temporary file
    is gone. *)
Theorem malformed_chunk_aborts
    (guess_extension : string -> option string) (key temp_name : string)
    (before after : list Chunk) (bad : Chunk) (e : exn) (last : Stream)
    (fs : gmap string (list byte)) :
  key <> "" -> malformed bad e ->
  is_ok (assemble guess_extension [] (stream_of before Stop)) = true ->
  generate_podcast_audio guess_extension (Some key) temp_name
    (stream_of (before ++ bad :: after) last) fs
  = (Raise e, delete temp_name fs).
Proof.
  intros Hkey Hbad Hbefore. rewrite generate_podcast_audio_eq by done.
  rewrite assemble_app.
  destruct (assemble guess_extension [] (stream_of before Stop)) as [mid|];
    [|done].
  cbn [mbind result_bind bind stream_of assemble].
  by rewrite (process_chunk_malformed _ _ _ _ Hbad).
Qed.

Lemma malformed_chunk_aborts_witness :
  generate_podcast_audio sample_guess_extension (Some "k") "/tmp/a.wav"
    (stream_of
       ([audio_chunk ([x01], "audio/mpeg")]
          ++ chunk_with_parts [] [] :: [audio_chunk ([x02], "audio/mpeg")])
       Stop)
    ∅
  = (Raise IndexError, delete "/tmp/a.wav" ∅).
Proof.
  apply (malformed_chunk_aborts sample_guess_extension "k" "/tmp/a.wav"
           [audio_chunk ([x01], "audio/mpeg")]
           [audio_chunk ([x02], "audio/mpeg")]
           (chunk_with_parts [] []) IndexError Stop ∅).
  - discriminate.
  - apply empty_parts.
  - reflexivity.
Defined.

(** ** The route [/generate] *)

Lemma strip_empty s : strip s = "" -> all_chars isspace s = true.
Proof.
  unfold strip. induction s as [|c s IH]; [done|].
  cbn [lstrip all_chars]. destruct (isspace c) eqn:Hc; [exact IH|].
  cbn [rstrip]. rewrite Hc. by destruct (rstrip s).
Qed.

Lemma all_space_strip s : all_chars isspace s = true -> strip s = "".
Proof.
  unfold strip. induction s as [|c s IH]; [done|].
  cbn [lstrip all_chars]. intros [Hc Hs]%andb_true_iff. rewrite Hc. auto.
Qed.

Lemma isspace_lower_char c : isspace c = true -> lower_char c = c.
Proof. by_cases_on_char c. Qed.

Lemma contains_all_space s y p :
  all_chars isspace s = true -> isspace y = false ->
  contains (lower s) (String y p) = false.
Proof.
  intros Hs Hy. induction s as [|c s IH]; [done|].
  cbn [all_chars] in Hs. apply andb_true_iff in Hs as [Hc Hs].
  cbn [lower contains startswith]. rewrite (IH Hs), (isspace_lower_char c Hc).
  destruct (Ascii.eqb_spec c y) as [->|]; [congruence|done].
Qed.

Lemma lower_app s t : lower (s +:+ t) = lower s +:+ lower t.
Proof.
  induction s as [|c s IH]; [done|].
  rewrite append_cons. cbn [lower]. by rewrite IH, append_cons.
Qed.

Lemma startswith_app p s : startswith (p +:+ s) p = true.
Proof.
  induction p as [|c p IH]; [done|].
  rewrite append_cons. cbn [startswith]. by rewrite Ascii.eqb_refl, IH.
Qed.

Lemma contains_infix s p t : contains (s +:+ p +:+ t) p = true.
Proof.
  induction s as [|c s IH].
  - rewrite append_empty_l.
    destruct (p +:+ t) eqn:E; cbn [contains]; rewrite <- E;
      by rewrite startswith_app.
  - rewrite append_cons. cbn [contains]. rewrite IH. apply orb_true_r.
Qed.

Lemma map_lookup_size (d : gmap string json) k v :
  d !! k = Some v -> Nat.eqb (size d) 0 = false.
Proof.
  intros H. apply Nat.eqb_neq. apply map_size_non_empty_iff.
  intros ->. by rewrite lookup_empty in H.
Qed.

Lemma generate_podcast_body_string
    g api_key temp_name generator uuid_hex d script_text fs :
  d !! "script" = Some (JString script_text) ->
  generate_podcast_body g api_key temp_name generator uuid_hex (JObject d) fs
  = if String.eqb (strip script_text) "" then
      (Return (Error 400 (Literal "Script cannot be empty")), fs)
    else if negb (contains (lower script_text) "david:")
            || negb (contains (lower script_text) "janis:") then
      (Return
         (Error 400
            (Literal
               "Script must contain both 'david:' and 'janis:' speakers")),
       fs)
    else
      match
        generate_podcast_audio g api_key temp_name (generator script_text) fs
      with
      | (Ok audio_file_path, fs) =>
          (Return
             (SendFile audio_file_path
                ("podcast_" +:+ substring 0 8 uuid_hex +:+ ".wav")),
           fs)
      | (Raise e, fs) => (Throw (Core e), fs)
      end.
Proof.
  intros H. unfold generate_podcast_body. cbn [truth has_script get_script].
  rewrite (map_lookup_size _ _ _ H), H.
  rewrite bool_decide_eq_true_2 by eauto. done.
Qed.

Lemma generate_podcast_body_labelled
    g api_key temp_name generator uuid_hex d script_text fs :
  d !! "script" = Some (JString script_text) ->
  contains (lower script_text) "david:" = true ->
  contains (lower script_text) "janis:" = true ->
  generate_podcast_body g api_key temp_name generator uuid_hex (JObject d) fs
  = match
      generate_podcast_audio g api_key temp_name (generator script_text) fs
    with
    | (Ok audio_file_path, fs) =>
        (Return
           (SendFile audio_file_path
              ("podcast_" +:+ substring 0 8 uuid_hex +:+ ".wav")),
         fs)
    | (Raise e, fs) => (Throw (Core e), fs)
    end.
Proof.
  intros H Hd Hj. rewrite (generate_podcast_body_string _ _ _ _ _ _ _ _ H).
  rewrite Hd, Hj. cbn [negb orb].
  destruct (String.eqb_spec (strip script_text) "") as [E|]; [|done].
  apply strip_empty in E.
  by rewrite (contains_all_space _ "d" "avid:" E) in Hd.
Qed.

(** X15: a script without one of the two speaker labels is refused with
    status 400 before anything is generated, with the message for an empty
    script when it is blank; the files are untouched. *)
Theorem script_without_both_speakers_is_refused
    (guess_extension : string -> option string) (api_key : option string)
    (temp_name : string) (generator : string -> Stream) (uuid_hex : string)
    (d : gmap string json) (script_text : string)
    (fs : gmap string (list byte)) :
  d !! "script" = Some (JString script_text) ->
  contains (lower script_text) "david:"
  && contains (lower script_text) "janis:" = false ->
  generate_podcast guess_extension api_key temp_name generator uuid_hex
    (JObject d) fs
  = (Error 400
       (Literal
          (if all_chars isspace script_text then "Script cannot be empty"
           else "Script must contain both 'david:' and 'janis:' speakers")),
     fs).
Proof.
  intros H Hno. unfold generate_podcast.
  rewrite (generate_podcast_body_string _ _ _ _ _ _ _ _ H).
  destruct (String.eqb_spec (strip script_text) "") as [E|E].
  - by rewrite (strip_empty _ E).
  - destruct (all_chars isspace script_text) eqn:Hs.
    { by apply all_space_strip in Hs. }
    replace (negb (contains (lower script_text) "david:")
             || negb (contains (lower script_text) "janis:")) with true; [done|].
    by destruct (contains (lower script_text) "david:"),
         (contains (lower script_text) "janis:").
Qed.

Lemma script_without_both_speakers_is_refused_witness :
  generate_podcast sample_guess_extension (Some "k") "/tmp/a.wav"
    (fun _ => Stop) "0123456789abcdef"
    (JObject {[ "script" := JString "David: hello" ]}) ∅
  = (Error 400
       (Literal "Script must contain both 'david:' and 'janis:' speakers"),
     ∅).
Proof.
  apply (script_without_both_speakers_is_refused sample_guess_extension
           (Some "k") "/tmp/a.wav" (fun _ => Stop) "0123456789abcdef"
           {[ "script" := JString "David: hello" ]} "David: hello" ∅).
  - reflexivity.
  - reflexivity.
Defined.

(** X16: the labels are recognised in any letter case, anywhere in the
    script and in either order: such a script is never answered with one of
    the messages of the checks. *)
Theorem speaker_labels_in_any_case_and_order
    (guess_extension : string -> option string) (api_key : option string)
    (temp_name : string) (generator : string -> Stream) (uuid_hex : string)
    (d : gmap string json) (script_text s1 david s2 janis s3 : string)
    (fs : gmap string (list byte)) :
  lower david = "david:" -> lower janis = "janis:" ->
  script_text = s1 +:+ david +:+ s2 +:+ janis +:+ s3
  \/ script_text = s1 +:+ janis +:+ s2 +:+ david +:+ s3 ->
  d !! "script" = Some (JString script_text) ->
  forall status text,
    (generate_podcast guess_extension api_key temp_name generator uuid_hex
       (JObject d) fs).1
    <> Error status (Literal text).
Proof.
  intros Hd Hj Hs H status text. unfold generate_podcast.
  rewrite (generate_podcast_body_labelled _ _ _ _ _ _ _ _ H).
  - destruct (generate_podcast_audio _ _ _ _ _) as [[path|e] fs']; [done|].
    cbn. by destruct e.
  - destruct Hs as [-> | ->]; rewrite !lower_app, Hd, Hj.
    + apply contains_infix.
    + rewrite <- (append_assoc "janis:"), <- (append_assoc (lower s1)).
      apply contains_infix.
  - destruct Hs as [-> | ->]; rewrite !lower_app, Hd, Hj.
    + rewrite <- (append_assoc "david:"), <- (append_assoc (lower s1)).
      apply contains_infix.
    + apply contains_infix.
Qed.

Lemma speaker_labels_in_any_case_and_order_witness :
  (generate_podcast sample_guess_extension (Some "k") "/tmp/a.wav"
     (fun _ => Stop) "0123456789abcdef"
     (JObject {[ "script" := JString "JANIS: hi. David: hello" ]}) ∅).1
  <> Error 400
       (Literal "Script must contain both 'david:' and 'janis:' speakers").
Proof.
  apply (speaker_labels_in_any_case_and_order sample_guess_extension
           (Some "k") "/tmp/a.wav" (fun _ => Stop) "0123456789abcdef"
           {[ "script" := JString "JANIS: hi. David: hello" ]}
           "JANIS: hi. David: hello" "" "David:" " hi. " "JANIS:" " hello" ∅).
  - reflexivity.
  - reflexivity.
  - right. reflexivity.
  - reflexivity.
Defined.

(** X17: a request with both labels, a key in the environment and a stream
    that is assembled without error is answered with the temporary file,
    sent under a name made of the first eight characters of the identifier;
    the file holds the assembled audio and no other file has changed. *)
Theorem labelled_script_is_answered_with_the_audio
    (guess_extension : string -> option string)
    (key temp_name : string) (generator : string -> Stream)
    (uuid_hex : string) (d : gmap string json) (script_text : string)
    (audio_data : list byte) (fs : gmap string (list byte)) :
  d !! "script" = Some (JString script_text) ->
  contains (lower script_text) "david:" = true ->
  contains (lower script_text) "janis:" = true ->
  key <> "" ->
  assemble guess_extension [] (generator script_text) = Ok audio_data ->
  exists fs',
    generate_podcast guess_extension (Some key) temp_name generator uuid_hex
      (JObject d) fs
    = (SendFile temp_name ("podcast_" +:+ substring 0 8 uuid_hex +:+ ".wav"),
       fs')
    /\ fs' !! temp_name = Some audio_data
    /\ forall path, path <> temp_name -> fs' !! path = fs !! path.
Proof.
  intros H Hd Hj Hkey Hout. exists (<[ temp_name := audio_data ]> fs).
  unfold generate_podcast.
  rewrite (generate_podcast_body_labelled _ _ _ _ _ _ _ _ H Hd Hj).
  rewrite generate_podcast_audio_eq, Hout by done.
  split; [done|]. split; [by rewrite lookup_insert_eq|].
  intros path Hpath. by rewrite lookup_insert_ne.
Qed.

Lemma labelled_script_is_answered_with_the_audio_witness :
  exists fs',
    generate_podcast sample_guess_extension (Some "k") "/tmp/a.wav"
      (fun _ => stream_of [chunk_with_parts [audio_part [x01] "audio/mpeg"] []]
                  Stop)
      "0123456789abcdef"
      (JObject {[ "script" := JString "david: hi janis: ho" ]})
      {[ "/tmp/b.wav" := [x00] ]}
    = (SendFile "/tmp/a.wav" "podcast_01234567.wav", fs')
    /\ fs' !! "/tmp/a.wav" = Some [x01]
    /\ fs' !! "/tmp/b.wav" = Some [x00].
Proof.
  destruct (labelled_script_is_answered_with_the_audio sample_guess_extension
              "k" "/tmp/a.wav"
              (fun _ =>
                 stream_of
                   [chunk_with_parts [audio_part [x01] "audio/mpeg"] []] Stop)
              "0123456789abcdef"
              {[ "script" := JString "david: hi janis: ho" ]}
              "david: hi janis: ho" [x01] {[ "/tmp/b.wav" := [x00] ]})
    as (fs' & Hrun & Hfile & Hsame);
    [reflexivity | reflexivity | reflexivity | discriminate | reflexivity |].
  exists fs'. split; [exact Hrun|]. split; [exact Hfile|].
  rewrite Hsame by discriminate. reflexivity.
Defined.

(** X18: when the stream or the processing of a chunk raises, the request is
    answered 400 for a [ValueError] and 500 for anything else, and the
    temporary file is gone. *)
Theorem failed_generation_is_reported_and_cleaned_up
    (guess_extension : string -> option string)
    (key temp_name : string) (generator : string -> Stream)
    (uuid_hex : string) (d : gmap string json) (script_text : string)
    (e : exn) (fs : gmap string (list byte)) :
  d !! "script" = Some (JString script_text) ->
  contains (lower script_text) "david:" = true ->
  contains (lower script_text) "janis:" = true ->
  key <> "" ->
  assemble guess_extension [] (generator script_text) = Raise e ->
  generate_podcast guess_extension (Some key) temp_name generator uuid_hex
    (JObject d) fs
  = (if exn_eqb e ValueError then Error 400 (Str (Core e))
     else Error 500 (FailedToGenerate (Core e)),
     delete temp_name fs).
Proof.
  intros H Hd Hj Hkey Hout. unfold generate_podcast.
  rewrite (generate_podcast_body_labelled _ _ _ _ _ _ _ _ H Hd Hj).
  rewrite generate_podcast_audio_eq, Hout by done.
  by destruct e.
Qed.

Lemma failed_generation_is_reported_and_cleaned_up_witness :
  generate_podcast sample_guess_extension (Some "k") "/tmp/a.wav"
    (fun _ => stream_of [chunk_with_parts [audio_part [x01] "audio/L65536"] []]
                Stop)
    "0123456789abcdef"
    (JObject {[ "script" := JString "david: hi janis: ho" ]})
    {[ "/tmp/b.wav" := [x00] ]}
  = (Error 500 (FailedToGenerate (Core StructError)),
     delete "/tmp/a.wav" {[ "/tmp/b.wav" := [x00] ]}).
Proof.
  apply (failed_generation_is_reported_and_cleaned_up sample_guess_extension
           "k" "/tmp/a.wav"
           (fun _ =>
              stream_of
                [chunk_with_parts [audio_part [x01] "audio/L65536"] []] Stop)
           "0123456789abcdef"
           {[ "script" := JString "david: hi janis: ho" ]}
           "david: hi janis: ho" StructError {[ "/tmp/b.wav" := [x00] ]}).
  - reflexivity.
  - reflexivity.
  - reflexivity.
  - discriminate.
  - by vm_compute.
Defined.

(** X19: without a key in the environment a request that passes the checks
    is answered 400, as if the request were at fault, and nothing is
    written. *)
Theorem missing_key_is_answered_400
    (guess_extension : string -> option string) (api_key : option string)
    (temp_name : string) (generator : string -> Stream) (uuid_hex : string)
    (d : gmap string json) (script_text : string)
    (fs : gmap string (list byte)) :
  d !! "script" = Some (JString script_text) ->
  contains (lower script_text) "david:" = true ->
  contains (lower script_text) "janis:" = true ->
  api_key = None \/ api_key = Some "" ->
  generate_podcast guess_extension api_key temp_name generator uuid_hex
    (JObject d) fs
  = (Error 400 (Str (Core ValueError)), fs).
Proof.
  intros H Hd Hj Hkey. unfold generate_podcast.
  rewrite (generate_podcast_body_labelled _ _ _ _ _ _ _ _ H Hd Hj).
  by destruct Hkey as [-> | ->].
Qed.

Lemma missing_key_is_answered_400_witness :
  generate_podcast sample_guess_extension None "/tmp/a.wav"
    (fun _ => Stop) "0123456789abcdef"
    (JObject {[ "script" := JString "david: hi janis: ho" ]}) ∅
  = (Error 400 (Str (Core ValueError)), ∅).
Proof.
  apply (missing_key_is_answered_400 sample_guess_extension None "/tmp/a.wav"
           (fun _ => Stop) "0123456789abcdef"
           {[ "script" := JString "david: hi janis: ho" ]}
           "david: hi janis: ho" ∅).
  - reflexivity.
  - reflexivity.
  - reflexivity.
  - left. reflexivity.
Defined.

Lemma generate_podcast_without_string_script
    (guess_extension : string -> option string) (api_key : option string)
    (temp_name : string) (generator : string -> Stream) (uuid_hex : string)
    (data : json) (fs : gmap string (list byte)) :
  (forall d script_text,
      data = JObject d -> d !! "script" <> Some (JString script_text)) ->
  exists r,
    generate_podcast guess_extension api_key temp_name generator uuid_hex
      data fs
    = (r, fs)
    /\ (r = Error 400 (Literal "Script text is required")
        \/ r = Error 500 (FailedToGenerate TypeError)
        \/ r = Error 500 (FailedToGenerate (Core AttributeError)))
    /\ (truth data = false -> r = Error 400 (Literal "Script text is required"))
    /\ (forall d, data = JObject d ->
          r = match d !! "script" with
              | Some _ => Error 500 (FailedToGenerate (Core AttributeError))
              | None => Error 400 (Literal "Script text is required")
              end).
Proof.
  intros Hno. unfold generate_podcast, generate_podcast_body.
  destruct data as [|[]|z|[]|s|l|d]; cbn [truth has_script get_script negb].
  1-2, 5: by eexists; repeat split; eauto.
  - eexists; repeat split; eauto. all: done.
  - destruct (z =? 0) eqn:E; cbn [negb]; eexists; repeat split; eauto.
    all: done.
  - eexists; repeat split; eauto. all: done.
  - destruct (String.eqb s ""), (contains s "script"); cbn [negb];
      eexists; repeat split; eauto; done.
  - destruct (Nat.eqb (length l) 0), (existsb _ l); cbn [negb];
      eexists; repeat split; eauto; done.
  - destruct (d !! "script") as [v|] eqn:E.
    + rewrite (map_lookup_size _ _ _ E).
      rewrite bool_decide_eq_true_2 by eauto. cbn [negb].
      destruct v; try (by eexists; repeat split; eauto;
                          [done | intros ? [= <-]; by rewrite E]).
      by destruct (Hno d s).
    + rewrite bool_decide_eq_false_2 by (by intros [? ?]).
      exists (Error 400 (Literal "Script text is required")).
      repeat split; eauto.
      * by destruct (negb (Nat.eqb (size d) 0)).
      * intros ? [= <-]; by rewrite E.
Qed.


(** X20: a body that is not an object with a string under [script] never
    reaches the generator and leaves the files untouched.  The answer is
    400 when the body is falsy or has no [script], and 500 when an operation
    meets a value of the wrong type; an object whose [script] is not a
    string is answered 500. *)
Theorem request_without_string_script
    (guess_extension : string -> option string) (api_key : option string)
    (temp_name : string) (generator : string -> Stream) (uuid_hex : string)
    (data : json) (fs : gmap string (list byte)) :
  (forall d script_text,
      data = JObject d -> d !! "script" <> Some (JString script_text)) ->
  exists r,
    generate_podcast guess_extension api_key temp_name generator uuid_hex
      data fs
    = (r, fs)
    /\ (r = Error 400 (Literal "Script text is required")
        \/ r = Error 500 (FailedToGenerate TypeError)
        \/ r = Error 500 (FailedToGenerate (Core AttributeError)))
    /\ (truth data = false -> r = Error 400 (Literal "Script text is required"))
    /\ (forall d, data = JObject d ->
          r = match d !! "script" with
              | Some _ => Error 500 (FailedToGenerate (Core AttributeError))
              | None => Error 400 (Literal "Script text is required")
              end).
Proof.
  exact (generate_podcast_without_string_script guess_extension api_key
           temp_name generator uuid_hex data fs).
Qed.

Lemma request_without_string_script_witness :
  exists r,
    generate_podcast sample_guess_extension (Some "k") "/tmp/a.wav"
      (fun _ => Stop) "0123456789abcdef"
      (JObject {[ "script" := JInt 5 ]}) ∅
    = (r, ∅)
    /\ r = Error 500 (FailedToGenerate (Core AttributeError)).
Proof.
  destruct (request_without_string_script sample_guess_extension (Some "k")
              "/tmp/a.wav" (fun _ => Stop) "0123456789abcdef"
              (JObject {[ "script" := JInt 5 ]}) ∅)
    as (r & Hrun & _ & _ & Hobj).
  - intros d script_text [= <-]. discriminate.
  - exists r. split; [exact Hrun|]. exact (Hobj _ eq_refl).
Defined.


